(** * Chudnovsky series on GMP floats, split over MPI processes and OpenMP threads

    Shallow embedding of [sources/gmp/algorithms/chudnovsky.c] and of the
    pre-flight check and precision set-up of [sources/gmp/pi_calculator.c].
    The arithmetic is embedded first, on stores of exact rationals; the run
    of a process ([OnMachine]) is embedded after it, on a state that also
    keeps GMP's default precision, the precision every [mpf_t] was created
    with and the calls made, and in which an allocation can fail.

    Conventions of the embedding.
    - A C [int] is a [Z] kept in the 32-bit signed range by [CInt.wrap];
      an [unsigned long] argument is obtained with [CInt.to_ulong].
    - An [mpf_t] is the rational number it denotes.  GMP rounds every result
      to the configured precision; the embedding computes the exact rational,
      so an equation proved here is the equation that holds "up to rounding"
      on the machine.
    - [mpf_t] parameters are pointers: they are modelled as variable names
      ([Var.t]) into a store, so that two parameters may name the same
      variable.
    - GMP aborts the program on a division by zero; the embedding returns
      [DivByZero].  Loops run on fuel and return [OutOfFuel] when it is
      exhausted.
    - GMP keeps a precision as a number of 64-bit limbs and aborts the
      program when an allocation fails; [Gmp] and [OnMachine.allocate] have
      the two rules. *)

From Stdlib Require Import ZArith QArith Qfield Qround Qpower Qabs List Lia Bool String.
From Stdlib Require Import Permutation.
Import ListNotations.
Open Scope Z_scope.

(** ** C integers *)

Module CInt.

Definition INT_MAX : Z := 2147483647.
Definition INT_MIN : Z := -2147483648.

Definition in_range (z : Z) : Prop := INT_MIN <= z <= INT_MAX.

(** Two's complement wrap-around of a 32-bit signed result. *)
Definition wrap (z : Z) : Z := (z + 2147483648) mod 4294967296 - 2147483648.

Definition add (a b : Z) : Z := wrap (a + b).
Definition sub (a b : Z) : Z := wrap (a - b).
Definition mul (a b : Z) : Z := wrap (a * b).
(** C division truncates toward zero.  A zero divisor is undefined in C; the
    program divides by [num_procs], which MPI gives as at least 1, and by
    constants. *)
Definition div (a b : Z) : Z := wrap (Z.quot a b).

(** Conversion of an [int] to a 64-bit [unsigned long] parameter. *)
Definition to_ulong (z : Z) : Z := z mod 18446744073709551616.

End CInt.

(** ** Results of fallible code *)

Inductive result (A : Type) : Type :=
| Ok (a : A)
| DivByZero
| OutOfFuel.

Arguments Ok {A} a.
Arguments DivByZero {A}.
Arguments OutOfFuel {A}.

Definition bind {A B : Type} (r : result A) (k : A -> result B) : result B :=
  match r with
  | Ok a => k a
  | DivByZero => DivByZero
  | OutOfFuel => OutOfFuel
  end.

Notation "x <- r ;; k" := (bind r (fun x => k))
  (at level 61, r at next level, right associativity).

(** ** The store of [mpf_t] variables *)

Module Var.

(** The [mpf_t] variables of [chudnovsky.c]: those of the process, those of
    one thread of the parallel region, and the two of [init_dep_a_gmp]. *)
Inductive t : Set :=
| pi | local_proc_pi | e | c
| local_thread_pi | dep_a | dep_a_dividend | dep_a_divisor | dep_b | dep_c | aux
| float_dividend | float_divisor.

Definition eqb (x y : t) : bool :=
  match x, y with
  | pi, pi | local_proc_pi, local_proc_pi | e, e | c, c
  | local_thread_pi, local_thread_pi | dep_a, dep_a
  | dep_a_dividend, dep_a_dividend | dep_a_divisor, dep_a_divisor
  | dep_b, dep_b | dep_c, dep_c | aux, aux
  | float_dividend, float_dividend | float_divisor, float_divisor => true
  | _, _ => false
  end.

End Var.

Definition store : Type := Var.t -> Q.

Definition upd (s : store) (x : Var.t) (v : Q) : store :=
  fun y => if Var.eqb x y then v else s y.

(** [mpf_inits]: every variable starts at zero. *)
Definition empty_store : store := fun _ => 0%Q.

(** ** GMP operations used by the program *)

Definition Qis_zero (q : Q) : bool := (Qnum q =? 0)%Z.

Definition mpf_set_ui (r : Var.t) (u : Z) (s : store) : store :=
  upd s r (inject_Z u).
Definition mpf_set_z (r : Var.t) (z : Z) (s : store) : store :=
  upd s r (inject_Z z).
Definition mpf_neg (r a : Var.t) (s : store) : store :=
  upd s r (- s a)%Q.
Definition mpf_add (r a b : Var.t) (s : store) : store :=
  upd s r (s a + s b)%Q.
Definition mpf_add_ui (r a : Var.t) (u : Z) (s : store) : store :=
  upd s r (s a + inject_Z u)%Q.
Definition mpf_mul (r a b : Var.t) (s : store) : store :=
  upd s r (s a * s b)%Q.
Definition mpf_mul_ui (r a : Var.t) (u : Z) (s : store) : store :=
  upd s r (s a * inject_Z u)%Q.
Definition mpf_pow_ui (r a : Var.t) (u : Z) (s : store) : store :=
  upd s r (s a ^ u)%Q.
Definition mpf_div (r a b : Var.t) (s : store) : result store :=
  if Qis_zero (s b) then DivByZero else Ok (upd s r (s a / s b)%Q).

(** [mpz_fac_ui] *)
Fixpoint fac_nat (n : nat) : Z :=
  match n with
  | O => 1
  | S k => Z.of_nat (S k) * fac_nat k
  end.
Definition mpz_fac_ui (u : Z) : Z := fac_nat (Z.to_nat u).

(** ** The series constants *)

Definition A : Z := 13591409.
Definition B : Z := 545140134.
Definition C : Z := 640320.
Definition D : Z := 426880.
Definition E : Z := 10005.

(** ** One term: [chudnovsky_iteration_gmp] *)

Definition chudnovsky_iteration_gmp
    (pi : Var.t) (n : Z) (dep_a dep_b dep_c aux : Var.t) (s : store)
    : result store :=
  let s := mpf_mul aux dep_a dep_c s in
  s <- mpf_div aux aux dep_b s ;;
  Ok (mpf_add pi pi aux s).

(** ** Direct initialisation of the factorial ratio: [init_dep_a_gmp] *)

Definition init_dep_a_gmp (dep_a : Var.t) (block_start : Z) (s : store)
    : result store :=
  let factorial_n := mpz_fac_ui (CInt.to_ulong block_start) in
  let divisor := mpz_fac_ui (CInt.to_ulong (CInt.mul 3 block_start)) in
  let dividend := mpz_fac_ui (CInt.to_ulong (CInt.mul 6 block_start)) in
  let factorial_n := factorial_n ^ 3 in
  let divisor := divisor * factorial_n in
  let s := mpf_set_z Var.float_dividend dividend s in
  let s := mpf_set_z Var.float_divisor divisor s in
  mpf_div dep_a Var.float_dividend Var.float_divisor s.

(** ** The body of the parallel region *)

(** Declarations and initialisation of one thread (lines 115 to 122). *)
Definition thread_init (block_start thread_id : Z) (s : store) : result store :=
  let s := mpf_set_ui Var.local_thread_pi 0 s in
  let s := upd s Var.dep_a 0%Q in
  let s := upd s Var.dep_b 0%Q in
  let s := upd s Var.dep_a_dividend 0%Q in
  let s := upd s Var.dep_a_divisor 0%Q in
  let s := upd s Var.aux 0%Q in
  s <- init_dep_a_gmp Var.dep_a (CInt.add block_start thread_id) s ;;
  let s := mpf_pow_ui Var.dep_b Var.c
             (CInt.to_ulong (CInt.add block_start thread_id)) s in
  let s := mpf_set_ui Var.dep_c B s in
  let s := mpf_mul_ui Var.dep_c Var.dep_c
             (CInt.to_ulong (CInt.add block_start thread_id)) s in
  let s := mpf_add_ui Var.dep_c Var.dep_c A s in
  Ok s.

(** The update of the three dependencies after term [i] (lines 137 to 151). *)
Definition advance (num_threads i : Z) (s : store) : result store :=
  let factor_a := CInt.mul 12 i in
  let s := mpf_set_ui Var.dep_a_dividend
             (CInt.to_ulong (CInt.add factor_a 10)) s in
  let s := mpf_mul_ui Var.dep_a_dividend Var.dep_a_dividend
             (CInt.to_ulong (CInt.add factor_a 6)) s in
  let s := mpf_mul_ui Var.dep_a_dividend Var.dep_a_dividend
             (CInt.to_ulong (CInt.add factor_a 2)) s in
  let s := mpf_mul Var.dep_a_dividend Var.dep_a_dividend Var.dep_a s in
  let s := mpf_set_ui Var.dep_a_divisor (CInt.to_ulong (CInt.add i 1)) s in
  let s := mpf_pow_ui Var.dep_a_divisor Var.dep_a_divisor 3 s in
  s <- mpf_div Var.dep_a Var.dep_a_dividend Var.dep_a_divisor s ;;
  let s := mpf_mul Var.dep_b Var.dep_b Var.c s in
  let s := mpf_add_ui Var.dep_c Var.dep_c
             (CInt.to_ulong (CInt.mul B num_threads)) s in
  Ok s.

(** One pass of the [for] body: the term, then the update. *)
Definition loop_body (num_threads i : Z) (s : store) : result store :=
  s <- chudnovsky_iteration_gmp Var.local_thread_pi i
         Var.dep_a Var.dep_b Var.dep_c Var.aux s ;;
  advance num_threads i s.

(** [for (i = ...; i < block_end; i += num_threads)], entered at [i].  The
    inner [parallel for] is nested in the parallel region: with nested
    parallelism off, which is the default, its team is the encountering
    thread alone, so every thread of the region runs its whole loop in
    order.  The progress messages thread 0 prints in the loop are left
    out. *)
Fixpoint thread_loop (fuel : nat) (block_end num_threads i : Z) (s : store)
    : result store :=
  if i <? block_end then
    match fuel with
    | O => OutOfFuel
    | S fuel =>
        s <- loop_body num_threads i s ;;
        thread_loop fuel block_end num_threads (CInt.add i num_threads) s
    end
  else Ok s.

(** What thread [thread_id] leaves in its private [local_thread_pi]. *)
Definition thread_run (fuel : nat) (block_start block_end num_threads thread_id : Z)
    (s : store) : result Q :=
  s <- thread_init block_start thread_id s ;;
  s <- thread_loop fuel block_end num_threads (CInt.add block_start thread_id) s ;;
  Ok (s Var.local_thread_pi).

(** The parallel region.  Every thread works on its own copy of the thread
    variables and reads the shared [c]; the only write to shared memory is the
    critical section, which adds the thread's sum to [local_proc_pi].  The
    critical sections are taken here in the order of the thread ids. *)
Fixpoint parallel_region (fuel : nat) (block_start block_end num_threads : Z)
    (thread_ids : list Z) (s : store) : result store :=
  match thread_ids with
  | [] => Ok s
  | thread_id :: rest =>
      local_thread_pi <-
        thread_run fuel block_start block_end num_threads thread_id s ;;
      parallel_region fuel block_start block_end num_threads rest
        (upd s Var.local_proc_pi (s Var.local_proc_pi + local_thread_pi)%Q)
  end.

(** The team created by [omp_set_num_threads (num_threads)]: ids [0] to
    [num_threads - 1]. *)
Definition team (num_threads : Z) : list Z :=
  map Z.of_nat (seq 0 (Z.to_nat num_threads)).

(** ** Block partition (lines 94 to 97) *)

Definition block_size (num_iterations num_procs : Z) : Z :=
  CInt.div (CInt.sub (CInt.add num_iterations num_procs) 1) num_procs.

Definition block_start (num_iterations num_procs proc_id : Z) : Z :=
  CInt.mul proc_id (block_size num_iterations num_procs).

Definition block_end (num_iterations num_procs proc_id : Z) : Z :=
  let block_end :=
    CInt.add (block_start num_iterations num_procs proc_id)
             (block_size num_iterations num_procs) in
  if block_end >? num_iterations then num_iterations else block_end.

(** ** Calls that are visible from outside the arithmetic *)

Inductive event : Type :=
| MpfSetDefaultPrec (bits : Z)
| MpfInit (x : Var.t)
| Printf (text : string)
| MPI_Finalize
| Exit (status : Z)
| WorkerStart (thread_id : Z)
| Pack (value : Q)
| MPI_Reduce (root : Z)
| Unpack.

(** The [mpf_t] variables a thread creates, in program order:
    [local_thread_pi], the five of [mpf_inits], the two temporaries of
    [init_dep_a_gmp], and [dep_c]. *)
Definition thread_events (thread_id : Z) : list event :=
  [ WorkerStart thread_id;
    MpfInit Var.local_thread_pi;
    MpfInit Var.dep_a; MpfInit Var.dep_b; MpfInit Var.dep_a_dividend;
    MpfInit Var.dep_a_divisor; MpfInit Var.aux;
    MpfInit Var.float_dividend; MpfInit Var.float_divisor;
    MpfInit Var.dep_c ].

(** The calls of [chudnovsky_algorithm_gmp], in program order: the three
    variables of the process, the threads, the packing and the reduction,
    and the unpacking on the root.  The creation and release of the MPI
    operation and the clearing of the variables are left out. *)
Definition algorithm_events (num_threads : Z) (sendbuffer : Q) (proc_id : Z)
    : list event :=
  [MpfInit Var.local_proc_pi; MpfInit Var.e; MpfInit Var.c]
  ++ flat_map thread_events (team num_threads)
  ++ [Pack sendbuffer; MPI_Reduce 0]
  ++ (if proc_id =? 0 then [Unpack] else []).

(** ** The algorithm of one process: [chudnovsky_algorithm_gmp] *)

Section Algorithm.

(** [mpf_sqrt] has no exact rational result: the rational GMP returns for a
    given operand is a parameter of the embedding. *)
Variable sqrt_approx : Q -> Q.

Definition mpf_sqrt (r a : Var.t) (s : store) : store :=
  upd s r (sqrt_approx (s a)).

(** Lines 99 to 103: the total of the process and the constants [e] and
    [c = (-C)^(3 * num_threads)]. *)
Definition process_init (num_threads : Z) (s : store) : store :=
  let s := mpf_set_ui Var.local_proc_pi 0 s in
  let s := mpf_set_ui Var.e E s in
  let s := mpf_set_ui Var.c C s in
  let s := mpf_neg Var.c Var.c s in
  mpf_pow_ui Var.c Var.c (CInt.to_ulong (CInt.mul 3 num_threads)) s.

(** Lines 94 to 160: the block, the constants and the parallel region. *)
Definition local_phase (fuel : nat)
    (num_procs proc_id num_iterations num_threads : Z) (s : store)
    : result store :=
  let block_start := block_start num_iterations num_procs proc_id in
  let block_end := block_end num_iterations num_procs proc_id in
  let s := process_init num_threads s in
  parallel_region fuel block_start block_end num_threads (team num_threads) s.

(** Lines 178 to 183: the root unpacks the reduced value into [pi] and
    finishes.  [unpack_gmp] belongs to [mpi_operations.h]; it stores the
    value held by the receive buffer. *)
Definition final_assembly (proc_id : Z) (recbuffer : Q) (s : store)
    : result store :=
  if proc_id =? 0 then
    let s := upd s Var.pi recbuffer in
    let s := mpf_sqrt Var.e Var.e s in
    let s := mpf_mul_ui Var.e Var.e D s in
    mpf_div Var.pi Var.e Var.pi s
  else Ok s.

(** The whole function.  [recbuffer] is what [MPI_Reduce] leaves in the
    receive buffer of this process; the store holds the caller's [pi]. *)
Definition chudnovsky_algorithm_gmp (fuel : nat)
    (num_procs proc_id num_iterations num_threads : Z)
    (recbuffer : Q) (s : store) : result (store * list event) :=
  s <- local_phase fuel num_procs proc_id num_iterations num_threads s ;;
  let sendbuffer := s Var.local_proc_pi in
  s' <- final_assembly proc_id recbuffer s ;;
  Ok (s', algorithm_events num_threads sendbuffer proc_id).

(** The value a process packs and sends. *)
Definition process_total (fuel : nat)
    (num_procs proc_id num_iterations num_threads : Z) : result Q :=
  s <- local_phase fuel num_procs proc_id num_iterations num_threads
         empty_store ;;
  Ok (s Var.local_proc_pi).

(** Modelled from the spec: [add_gmp] and the collective reduce of
    [mpi_operations.h] are not among the sources.  The combining function is
    [combine (a, b) = a + b]; the root receives the combination of the values
    packed by the processes [0] to [num_procs - 1]. *)
Fixpoint reduce_to_root (fuel : nat)
    (num_procs num_iterations num_threads : Z) (proc_ids : list Z)
    : result Q :=
  match proc_ids with
  | [] => Ok 0%Q
  | proc_id :: rest =>
      a <- process_total fuel num_procs proc_id num_iterations num_threads ;;
      b <- reduce_to_root fuel num_procs num_iterations num_threads rest ;;
      Ok (a + b)%Q
  end.

Definition global_sum (fuel : nat) (num_procs num_iterations num_threads : Z)
    : result Q :=
  reduce_to_root fuel num_procs num_iterations num_threads (team num_procs).

End Algorithm.

(** ** The pre-flight check of the driver and its iteration count *)

Definition msg_precision : string :=
  "  Precision should be greater than cero. ".
Definition msg_iterations : string :=
  "  The number of iterations required for the computation is too small to be solved with %d threads and %d procesess. ".
Definition msg_try : string :=
  "  Try using a greater precision or lower threads/processes number. ".
Definition msg_algorithm : string :=
  "  Algorithm selected is not correct. Try with: ".
Definition msg_bbp : string := "      algorithm == 0 -> BBP ".
Definition msg_bellard : string := "      algorithm == 1 -> Bellard ".
Definition msg_chudnovsky : string := "      algorithm == 2 -> Chudnovsky ".

(** The calls made by the check, and whether it returns to its caller. *)
Definition check_errors_gmp
    (num_procs precision num_iterations num_threads proc_id algorithm : Z)
    : list event * bool :=
  if precision <=? 0 then
    ((if proc_id =? 0 then [Printf msg_precision] else [])
       ++ [MPI_Finalize; Exit (-1)], false)
  else if num_iterations <? CInt.mul num_threads num_procs then
    ((if proc_id =? 0 then [Printf msg_iterations; Printf msg_try] else [])
       ++ [MPI_Finalize; Exit (-1)], false)
  else ([], true).

(** [(precision + 14 - 1) / 14] *)
Definition chudnovsky_iterations (precision : Z) : Z :=
  CInt.div (CInt.sub (CInt.add precision 14) 1) 14.

(** ** GMP's precision and allocation *)

(** GMP is a library, not part of the sources.  What the program relies on
    is taken from the library itself, for a machine with 64-bit limbs and a
    64-bit [unsigned long]: [mpf_set_default_prec (bits)] stores the
    precision in limbs, [__GMPF_BITS_TO_PREC (bits)], computed in
    [unsigned long]; [mpf_init] gives the variable that precision and
    allocates one limb more; [mpf_get_prec] answers
    [__GMPF_PREC_TO_BITS (prec)]. *)
Module Gmp.

Definition NUMB_BITS : Z := 64.

Definition bits_to_prec (bits : Z) : Z :=
  ((Z.max 53 bits + (2 * NUMB_BITS - 1)) mod 18446744073709551616)
  / NUMB_BITS.

Definition prec_to_bits (prec : Z) : Z := prec * NUMB_BITS - NUMB_BITS.

(** The default precision of a process that has not set one: 53 bits. *)
Definition initial_prec : Z := bits_to_prec 53.

End Gmp.

(** ** The precision context *)

(** The [mpf_t] variables created by a sequence of calls, each with the
    precision (in limbs) GMP gives it: the default in force when it is
    created, which is [default_prec] until [mpf_set_default_prec (bits)]
    makes it [Gmp.bits_to_prec bits]. *)
Fixpoint created (default_prec : Z) (trace : list event) : list (Var.t * Z) :=
  match trace with
  | [] => []
  | MpfSetDefaultPrec bits :: trace => created (Gmp.bits_to_prec bits) trace
  | MpfInit x :: trace => (x, default_prec) :: created default_prec trace
  | _ :: trace => created default_prec trace
  end.

(** ** Reference values: the series as the header of [chudnovsky.c] states it *)

(** [dep_a (n) = (6n)! / ((n!)^3 (3n)!)] *)
Definition dep_a_ref (n : Z) : Q :=
  (inject_Z (mpz_fac_ui (6 * n))
   / inject_Z (mpz_fac_ui n ^ 3 * mpz_fac_ui (3 * n)))%Q.
(** [dep_b (n) = (-640320)^(3n)] *)
Definition dep_b_ref (n : Z) : Q := (inject_Z (- C) ^ (3 * n))%Q.
(** [dep_c (n) = 545140134 n + 13591409] *)
Definition dep_c_ref (n : Z) : Q := inject_Z (B * n + A).
(** The summand of index [n]. *)
Definition term_ref (n : Z) : Q := (dep_a_ref n * dep_c_ref n / dep_b_ref n)%Q.

(** The sum of the terms [first, first + 1, ...], [count] of them. *)
Fixpoint series_ref (count : nat) (first : Z) : Q :=
  match count with
  | O => 0%Q
  | S count => (term_ref first + series_ref count (first + 1))%Q
  end.

(** A rational square root by truncation, [bits] binary places: an instance
    for the parameter [sqrt_approx]. *)
Definition sqrt_trunc (bits : Z) (q : Q) : Q :=
  (inject_Z (Z.sqrt (Qfloor (q * inject_Z (2 ^ (2 * bits)))))
   / inject_Z (2 ^ bits))%Q.

(** ** Vocabulary of the statements *)

Definition is_printf (ev : event) : bool :=
  match ev with Printf _ => true | _ => false end.

(** The largest count [(precision + 14 - 1) / 14] reaches on an [int]
    precision. *)
Definition max_iterations : Z := 153391689.

(** A configuration the pre-flight check lets through, with the process and
    thread counts the runtimes hand out (at least one of each) and an
    iteration count the driver can produce. *)
Definition accepted (num_procs num_iterations num_threads : Z) : Prop :=
  1 <= num_procs /\ 1 <= num_threads
  /\ num_threads * num_procs <= num_iterations
  /\ num_iterations <= max_iterations.

Definition sets_precision (ev : event) : bool :=
  match ev with MpfSetDefaultPrec _ => true | _ => false end.

(** Two stores that agree on what a thread reads before writing it. *)
Definition agree (s1 s2 : store) : Prop :=
  s1 Var.local_thread_pi = s2 Var.local_thread_pi
  /\ s1 Var.dep_a = s2 Var.dep_a /\ s1 Var.dep_b = s2 Var.dep_b
  /\ s1 Var.dep_c = s2 Var.dep_c /\ s1 Var.c = s2 Var.c.

(** Two runs that end the same way, in stores related by [R]. *)
Definition related (R : store -> store -> Prop) (r1 r2 : result store) : Prop :=
  match r1, r2 with
  | Ok s1, Ok s2 => R s1 s2
  | DivByZero, DivByZero => True
  | OutOfFuel, OutOfFuel => True
  | _, _ => False
  end.

(** Two stores of a process with the same running total and the same [c]. *)
Definition same_total (s1 s2 : store) : Prop :=
  s1 Var.local_proc_pi = s2 Var.local_proc_pi /\ s1 Var.c = s2 Var.c.

(** ** The two ways to reach the state of an index *)

(** The recurrence state a thread starts with at index [n]: the direct
    initialisation of lines 116 to 121, in a process of [num_threads]
    threads. *)
Definition direct_state (num_threads n : Z) : result store :=
  thread_init n 0 (process_init num_threads empty_store).

(** [count] updates in a row, as the loop makes them: the first one at
    index [i], the index moving by [num_threads] each time. *)
Fixpoint advance_from (count : nat) (num_threads i : Z) (s : store)
    : result store :=
  match count with
  | O => Ok s
  | S count =>
      s <- advance num_threads i s ;;
      advance_from count num_threads (CInt.add i num_threads) s
  end.

(** The state reached from index 0 by [count] updates. *)
Definition advanced_state (num_threads : Z) (count : nat) : result store :=
  s <- direct_state num_threads 0 ;;
  advance_from count num_threads 0 s.

(** The three dependencies of a state. *)
Definition dependencies (r : result store) : option (Q * Q * Q) :=
  match r with
  | Ok s => Some (Qred (s Var.dep_a), Qred (s Var.dep_b), Qred (s Var.dep_c))
  | _ => None
  end.

(** The recurrence state of a store is the one the header of the file
    gives for index [n], in a process of one thread. *)
Definition at_index (s : store) (n : Z) : Prop :=
  (s Var.dep_a == dep_a_ref n)%Q /\ (s Var.dep_b == dep_b_ref n)%Q
  /\ (s Var.dep_c == dep_c_ref n)%Q /\ s Var.c = ((- inject_Z C) ^ 3)%Q.

(** Side conditions of the form "this result is an [int]". *)
Ltac int_exact :=
  unfold CInt.in_range, CInt.INT_MIN, CInt.INT_MAX in *; lia.

(** ** The indices a thread visits *)

(** The values [i] takes in the body of
    [for (i = ...; i < block_end; i += num_threads)], entered at [i]: the
    control of [thread_loop] without its body. *)
Fixpoint loop_indices (fuel : nat) (block_end num_threads i : Z) : list Z :=
  if i <? block_end then
    match fuel with
    | O => []
    | S fuel =>
        i :: loop_indices fuel block_end num_threads (CInt.add i num_threads)
    end
  else [].

(** The loop body run at each index of a list, in order. *)
Fixpoint run_indices (num_threads : Z) (indices : list Z) (s : store)
    : result store :=
  match indices with
  | [] => Ok s
  | i :: indices =>
      s <- loop_body num_threads i s ;;
      run_indices num_threads indices s
  end.

(** Two stores of a process whose running totals denote the same number and
    whose [c] is the same. *)
Definition same_total_value (s1 s2 : store) : Prop :=
  (s1 Var.local_proc_pi == s2 Var.local_proc_pi)%Q /\ s1 Var.c = s2 Var.c.

(** ** The run of one process, with the precision every variable carries *)

(** The state of a process: GMP's default precision (in limbs), every
    [mpf_t] created so far with the precision (in limbs) it was given, the
    values, and the calls made so far. *)
Record machine : Type := Machine {
  default_prec : Z;
  carried : list (Var.t * Z);
  values : store;
  calls : list event
}.

Inductive halt : Type :=
| AllocationFailed (limbs : Z)
| ZeroDivisor
| NoFuel
| Exited (status : Z).

Inductive outcome : Type :=
| Running (m : machine)
| Halted (why : halt) (m : machine).

Definition step : Type := machine -> outcome.

(** Statements in a row: the first that halts ends the run. *)
Fixpoint run_steps (steps : list step) (m : machine) : outcome :=
  match steps with
  | [] => Running m
  | first :: rest =>
      match first m with
      | Running m' => run_steps rest m'
      | Halted why m' => Halted why m'
      end
  end.

Definition record (ev : event) : step :=
  fun m =>
    Running (Machine (default_prec m) (carried m) (values m) (calls m ++ [ev])).

Definition record_all (evs : list event) : step :=
  fun m =>
    Running (Machine (default_prec m) (carried m) (values m) (calls m ++ evs)).

(** An operation of the arithmetic that cannot fail. *)
Definition compute (f : store -> store) : step :=
  fun m =>
    Running (Machine (default_prec m) (carried m) (f (values m)) (calls m)).

(** An operation of the arithmetic that can. *)
Definition attempt (f : store -> result store) : step :=
  fun m =>
    match f (values m) with
    | Ok s => Running (Machine (default_prec m) (carried m) s (calls m))
    | DivByZero => Halted ZeroDivisor m
    | OutOfFuel => Halted NoFuel m
    end.

Definition fresh_machine : machine :=
  Machine Gmp.initial_prec [] empty_store [].

Module OnMachine.

Section Run.

(** The largest number of limbs one allocation can obtain on the machine;
    GMP aborts the process when an allocation fails. *)
Variable available_limbs : Z.

Variable sqrt_approx : Q -> Q.

Definition mpf_set_default_prec (bits : Z) : step :=
  fun m =>
    Running (Machine (Gmp.bits_to_prec bits) (carried m) (values m)
               (calls m ++ [MpfSetDefaultPrec bits])).

(** The allocation every [mpf_init] starts with. *)
Definition allocate (x : Var.t) : step :=
  fun m =>
    if default_prec m + 1 <=? available_limbs then
      Running (Machine (default_prec m) (carried m ++ [(x, default_prec m)])
                 (values m) (calls m ++ [MpfInit x]))
    else Halted (AllocationFailed (default_prec m + 1)) m.

Definition mpf_init (x : Var.t) : step :=
  run_steps [allocate x; compute (fun s => upd s x 0%Q)].

Definition mpf_init_set_ui (x : Var.t) (u : Z) : step :=
  run_steps [allocate x; compute (mpf_set_ui x u)].

(** Lines 62 to 75.  The zero the two temporaries start with is overwritten
    by [mpf_set_z] before it is read; the arithmetic is [init_dep_a_gmp]. *)
Definition init_dep_a_gmp (dep_a : Var.t) (block_start : Z) : step :=
  run_steps
    [ allocate Var.float_dividend;
      allocate Var.float_divisor;
      attempt (init_dep_a_gmp dep_a block_start) ].

(** Lines 115 to 121. *)
Definition thread_init (block_start thread_id : Z) : step :=
  run_steps
    [ mpf_init_set_ui Var.local_thread_pi 0;
      mpf_init Var.dep_a;
      mpf_init Var.dep_b;
      mpf_init Var.dep_a_dividend;
      mpf_init Var.dep_a_divisor;
      mpf_init Var.aux;
      init_dep_a_gmp Var.dep_a (CInt.add block_start thread_id);
      compute (mpf_pow_ui Var.dep_b Var.c
                 (CInt.to_ulong (CInt.add block_start thread_id)));
      mpf_init_set_ui Var.dep_c B;
      compute (mpf_mul_ui Var.dep_c Var.dep_c
                 (CInt.to_ulong (CInt.add block_start thread_id)));
      compute (mpf_add_ui Var.dep_c Var.dep_c A) ].

(** One thread of the region, up to its critical section: the loop creates
    no variable, it is [thread_loop]. *)
Definition thread_run (fuel : nat)
    (block_start block_end num_threads thread_id : Z) : step :=
  run_steps
    [ record (WorkerStart thread_id);
      thread_init block_start thread_id;
      attempt (thread_loop fuel block_end num_threads
                 (CInt.add block_start thread_id)) ].

(** The parallel region: as in [parallel_region], every thread works on its
    own copy of the values and its critical section adds its sum to
    [local_proc_pi]; what it created and the calls it made stay on
    record. *)
Fixpoint parallel_region (fuel : nat) (block_start block_end num_threads : Z)
    (thread_ids : list Z) (m : machine) : outcome :=
  match thread_ids with
  | [] => Running m
  | thread_id :: rest =>
      match thread_run fuel block_start block_end num_threads thread_id m with
      | Running mt =>
          parallel_region fuel block_start block_end num_threads rest
            (Machine (default_prec mt) (carried mt)
               (upd (values m) Var.local_proc_pi
                  (values m Var.local_proc_pi
                   + values mt Var.local_thread_pi)%Q)
               (calls mt))
      | Halted why mt => Halted why mt
      end
  end.

(** Lines 99 to 103. *)
Definition process_init (num_threads : Z) : step :=
  run_steps
    [ mpf_init_set_ui Var.local_proc_pi 0;
      mpf_init_set_ui Var.e E;
      mpf_init_set_ui Var.c C;
      compute (mpf_neg Var.c Var.c);
      compute (mpf_pow_ui Var.c Var.c
                 (CInt.to_ulong (CInt.mul 3 num_threads))) ].

(** Lines 94 to 160. *)
Definition local_phase (fuel : nat)
    (num_procs proc_id num_iterations num_threads : Z) : step :=
  run_steps
    [ process_init num_threads;
      parallel_region fuel
        (block_start num_iterations num_procs proc_id)
        (block_end num_iterations num_procs proc_id)
        num_threads (team num_threads) ].

(** The whole function.  Modelled from the spec: [pack_gmp], [unpack_gmp]
    and the [add_gmp] that [MPI_Reduce] applies belong to
    [mpi_operations.h], which is not among the sources; the spec has them
    serialize the total of the process, combine the payloads by addition and
    deserialize the result at the root.  They are recorded as calls; the
    variables they may create for themselves are not on record. *)
Definition chudnovsky_algorithm_gmp (fuel : nat)
    (num_procs proc_id num_iterations num_threads : Z) (recbuffer : Q)
    : step :=
  run_steps
    [ local_phase fuel num_procs proc_id num_iterations num_threads;
      (fun m => record (Pack (values m Var.local_proc_pi)) m);
      record (MPI_Reduce 0);
      record_all (if proc_id =? 0 then [Unpack] else []);
      attempt (final_assembly sqrt_approx proc_id recbuffer) ].

(** An algorithm as the driver calls it. *)
Definition algorithm_gmp : Type := nat -> Z -> Z -> Z -> Z -> Q -> step.

(** The algorithms of selectors 0, 1 and 2 are not among the sources, and
    selector 0 derives its iteration count in [double] arithmetic
    ([precision * 0.84]): both are parameters. *)
Variable other_algorithm : Z -> algorithm_gmp.
Variable bbp_iterations : Z -> Z.

(** Modelled from the spec: the driver calls
    [chudnovsky_blocks_and_cyclic_algorithm_gmp], declared in
    [algorithms/chudnovsky_blocks_and_cyclic.h], which is not among the
    sources.  The spec has the driver hand over to the algorithm in which
    the processes take blocks and the threads of a process split their
    block cyclically: that is [chudnovsky_algorithm_gmp] of [chudnovsky.c],
    which has the same parameters. *)
Definition chudnovsky_blocks_and_cyclic_algorithm_gmp : algorithm_gmp :=
  chudnovsky_algorithm_gmp.

(** [check_errors_gmp], then the algorithm if the check returns. *)
Definition checked_run
    (num_procs proc_id algorithm precision num_threads num_iterations : Z)
    (fuel : nat) (recbuffer : Q) (run : algorithm_gmp) : step :=
  fun m =>
    let (checked, returns) :=
      check_errors_gmp num_procs precision num_iterations num_threads
        proc_id algorithm in
    match record_all checked m with
    | Running m' =>
        if returns then
          run fuel num_procs proc_id num_iterations num_threads recbuffer m'
        else Halted (Exited (-1)) m'
    | Halted why m' => Halted why m'
    end.

(** [calculate_pi_gmp], lines 48 to 97, on one process.  The messages are
    recorded without their trailing newlines.  Timing, the count of correct
    decimals and the printing of the results, which follow on process 0
    when the algorithm returns, are left out. *)
Definition calculate_pi_gmp (fuel : nat)
    (num_procs proc_id algorithm precision num_threads : Z) (recbuffer : Q)
    : step :=
  run_steps
    [ mpf_set_default_prec (CInt.to_ulong (CInt.mul precision 8));
      (if proc_id =? 0 then mpf_init_set_ui Var.pi 0 else run_steps []);
      match algorithm with
      | 0 =>
          checked_run num_procs proc_id algorithm precision num_threads
            (bbp_iterations precision) fuel recbuffer (other_algorithm 0)
      | 1 =>
          checked_run num_procs proc_id algorithm precision num_threads
            (CInt.div precision 3) fuel recbuffer (other_algorithm 1)
      | 2 =>
          checked_run num_procs proc_id algorithm precision num_threads
            (chudnovsky_iterations precision) fuel recbuffer
            (other_algorithm 2)
      | 3 =>
          checked_run num_procs proc_id algorithm precision num_threads
            (chudnovsky_iterations precision) fuel recbuffer
            chudnovsky_blocks_and_cyclic_algorithm_gmp
      | _ =>
          run_steps
            [ record_all
                (if proc_id =? 0 then
                   [ Printf msg_algorithm; Printf msg_bbp;
                     Printf msg_bellard; Printf msg_chudnovsky;
                     Printf EmptyString ]
                 else []);
              record MPI_Finalize;
              record (Exit (-1));
              (fun m => Halted (Exited (-1)) m) ]
      end ].

End Run.

End OnMachine.

(** What the variables of a thread carry, in the order of their creation. *)
Definition thread_carried (prec : Z) : list (Var.t * Z) :=
  [ (Var.local_thread_pi, prec); (Var.dep_a, prec); (Var.dep_b, prec);
    (Var.dep_a_dividend, prec); (Var.dep_a_divisor, prec); (Var.aux, prec);
    (Var.float_dividend, prec); (Var.float_divisor, prec);
    (Var.dep_c, prec) ].

(** What the variables of one run of [chudnovsky_algorithm_gmp] carry: the
    three of the process, then those of each thread. *)
Definition algorithm_carried (prec num_threads : Z) : list (Var.t * Z) :=
  [ (Var.local_proc_pi, prec); (Var.e, prec); (Var.c, prec) ]
  ++ flat_map (fun _ => thread_carried prec) (team num_threads).

(** The state [calculate_pi_gmp] reaches once it has set the default
    precision and, on process 0, created [pi]. *)
Definition after_prologue (proc_id precision : Z) (m : machine) : machine :=
  let bits := CInt.to_ulong (CInt.mul precision 8) in
  Machine (Gmp.bits_to_prec bits)
    (carried m
     ++ (if proc_id =? 0 then [(Var.pi, Gmp.bits_to_prec bits)] else []))
    (if proc_id =? 0 then mpf_set_ui Var.pi 0 (values m) else values m)
    (calls m
     ++ MpfSetDefaultPrec bits
        :: (if proc_id =? 0 then [MpfInit Var.pi] else [])).

(** The same state with further calls on record. *)
Definition with_calls (m : machine) (evs : list event) : machine :=
  Machine (default_prec m) (carried m) (values m) (calls m ++ evs).

(** * Properties *)

(** ** C integers *)

Module CIntFacts.

Lemma wrap_in_range (z : Z) : CInt.in_range z -> CInt.wrap z = z.
Proof.
  unfold CInt.in_range, CInt.INT_MIN, CInt.INT_MAX, CInt.wrap. intros H.
  rewrite Z.mod_small; lia.
Qed.

Lemma add_exact (a b : Z) : CInt.in_range (a + b) -> CInt.add a b = a + b.
Proof. apply wrap_in_range. Qed.

Lemma sub_exact (a b : Z) : CInt.in_range (a - b) -> CInt.sub a b = a - b.
Proof. apply wrap_in_range. Qed.

Lemma mul_exact (a b : Z) : CInt.in_range (a * b) -> CInt.mul a b = a * b.
Proof. apply wrap_in_range. Qed.

Lemma div_exact (a b : Z) :
  0 <= a <= CInt.INT_MAX -> 0 < b -> CInt.div a b = a / b.
Proof.
  intros Ha Hb. unfold CInt.div.
  rewrite Z.quot_div_nonneg by lia.
  apply wrap_in_range. unfold CInt.in_range, CInt.INT_MIN, CInt.INT_MAX in *.
  assert (0 <= a / b) by (apply Z.div_pos; lia).
  assert (a / b <= a) by (apply Z.div_le_upper_bound; nia).
  lia.
Qed.

Lemma to_ulong_exact (z : Z) : 0 <= z <= CInt.INT_MAX -> CInt.to_ulong z = z.
Proof.
  unfold CInt.to_ulong, CInt.INT_MAX. intros H. apply Z.mod_small. lia.
Qed.

Lemma to_ulong_nonneg (z : Z) : 0 <= CInt.to_ulong z.
Proof. unfold CInt.to_ulong. apply Z.mod_pos_bound. lia. Qed.

End CIntFacts.

(** ** Variables and stores *)

Lemma Var_eqb_spec (x y : Var.t) : reflect (x = y) (Var.eqb x y).
Proof. destruct x, y; simpl; constructor; congruence. Qed.

Lemma Var_eqb_refl (x : Var.t) : Var.eqb x x = true.
Proof. destruct x; reflexivity. Qed.

Lemma Var_eqb_neq (x y : Var.t) : x <> y -> Var.eqb x y = false.
Proof. destruct (Var_eqb_spec x y); congruence. Qed.

Lemma upd_same (s : store) (x : Var.t) (v : Q) : upd s x v x = v.
Proof. unfold upd. now rewrite Var_eqb_refl. Qed.

Lemma upd_other (s : store) (x y : Var.t) (v : Q) : x <> y -> upd s x v y = s y.
Proof. intros H. unfold upd. now rewrite Var_eqb_neq. Qed.

Lemma Qis_zero_false (q : Q) : ~ (q == 0)%Q -> Qis_zero q = false.
Proof.
  unfold Qis_zero, Qeq. simpl. intros H.
  apply Z.eqb_neq. lia.
Qed.

Lemma Qis_zero_true (q : Q) : Qis_zero q = true -> (q == 0)%Q.
Proof.
  unfold Qis_zero, Qeq. simpl. intros H. apply Z.eqb_eq in H. lia.
Qed.

(** ** One term *)

(** C6.  One call of [chudnovsky_iteration_gmp] on a store in which the
    accumulator [pi] and the scratch variable [aux] are not aliases of each
    other nor of the three dependencies, and in which [dep_b] is not zero,
    returns; afterwards [pi] holds its old value plus
    [dep_a * dep_c / dep_b], and [dep_a], [dep_b] and [dep_c] hold the values
    they had. *)
Theorem chudnovsky_iteration_gmp_adds_term
    (pi dep_a dep_b dep_c aux : Var.t) (n : Z) (s : store) :
  aux <> pi -> aux <> dep_a -> aux <> dep_b -> aux <> dep_c ->
  pi <> dep_a -> pi <> dep_b -> pi <> dep_c ->
  ~ (s dep_b == 0)%Q ->
  exists s',
    chudnovsky_iteration_gmp pi n dep_a dep_b dep_c aux s = Ok s'
    /\ s' pi = (s pi + s dep_a * s dep_c / s dep_b)%Q
    /\ s' dep_a = s dep_a /\ s' dep_b = s dep_b /\ s' dep_c = s dep_c.
Proof.
  intros Hap Haa Hab Hac Hpa Hpb Hpc Hb.
  assert (Hpa' : pi <> aux) by congruence.
  unfold chudnovsky_iteration_gmp, mpf_div, mpf_mul, mpf_add. cbv zeta.
  rewrite (upd_other _ aux dep_b) by assumption.
  rewrite (Qis_zero_false _ Hb). simpl.
  eexists. split; [reflexivity|].
  repeat (rewrite upd_same || rewrite upd_other by assumption).
  repeat split; reflexivity.
Qed.

Lemma chudnovsky_iteration_gmp_adds_term_witness :
  exists s',
    chudnovsky_iteration_gmp Var.local_thread_pi 0
      Var.dep_a Var.dep_b Var.dep_c Var.aux
      (upd (upd (upd empty_store Var.dep_a 1) Var.dep_b 1) Var.dep_c 3) = Ok s'
    /\ s' Var.local_thread_pi = (0 + 1 * 3 / 1)%Q.
Proof.
  destruct (chudnovsky_iteration_gmp_adds_term
              Var.local_thread_pi Var.dep_a Var.dep_b Var.dep_c Var.aux 0
              (upd (upd (upd empty_store Var.dep_a 1) Var.dep_b 1) Var.dep_c 3))
    as (s' & Hrun & Hpi & _); try discriminate.
  exists s'. split; [exact Hrun | exact Hpi].
Defined.

(** ** Block partition *)

Lemma block_size_exact (num_iterations num_procs : Z) :
  1 <= num_iterations -> 1 <= num_procs ->
  num_iterations + num_procs <= CInt.INT_MAX ->
  block_size num_iterations num_procs
  = (num_iterations + num_procs - 1) / num_procs.
Proof.
  intros Hi Hp Hmax. unfold block_size.
  unfold CInt.INT_MAX in Hmax.
  rewrite CIntFacts.add_exact
    by (unfold CInt.in_range, CInt.INT_MIN, CInt.INT_MAX; lia).
  rewrite CIntFacts.sub_exact
    by (unfold CInt.in_range, CInt.INT_MIN, CInt.INT_MAX; lia).
  apply CIntFacts.div_exact; unfold CInt.INT_MAX; lia.
Qed.

(** The quotient computed by the program is the ceiling of
    [num_iterations / num_procs]. *)
Lemma block_size_ceil (num_iterations num_procs : Z) :
  1 <= num_iterations -> 1 <= num_procs ->
  num_iterations + num_procs <= CInt.INT_MAX ->
  let bs := block_size num_iterations num_procs in
  num_procs * (bs - 1) < num_iterations <= num_procs * bs.
Proof.
  intros Hi Hp Hmax bs. subst bs.
  rewrite block_size_exact by assumption.
  pose proof (Z.div_mod (num_iterations + num_procs - 1) num_procs) as Hdm.
  pose proof (Z.mod_pos_bound (num_iterations + num_procs - 1) num_procs) as Hb.
  lia.
Qed.

Lemma block_start_exact (num_iterations num_procs proc_id : Z) :
  1 <= num_iterations -> 1 <= num_procs -> 0 <= proc_id < num_procs ->
  num_iterations + num_procs <= CInt.INT_MAX ->
  block_start num_iterations num_procs proc_id
  = proc_id * block_size num_iterations num_procs.
Proof.
  intros Hi Hp Hid Hmax.
  pose proof (block_size_ceil _ _ Hi Hp Hmax) as Hc. cbv zeta in Hc.
  unfold block_start. apply CIntFacts.mul_exact.
  unfold CInt.in_range, CInt.INT_MIN, CInt.INT_MAX in *. nia.
Qed.

Lemma block_end_exact (num_iterations num_procs proc_id : Z) :
  1 <= num_iterations -> 1 <= num_procs -> 0 <= proc_id < num_procs ->
  num_iterations + num_procs <= CInt.INT_MAX ->
  block_end num_iterations num_procs proc_id
  = Z.min ((proc_id + 1) * block_size num_iterations num_procs) num_iterations.
Proof.
  intros Hi Hp Hid Hmax.
  pose proof (block_size_ceil _ _ Hi Hp Hmax) as Hc. cbv zeta in Hc.
  pose proof (block_start_exact _ _ _ Hi Hp Hid Hmax) as Hs.
  unfold block_end. rewrite Hs.
  rewrite CIntFacts.add_exact
    by (unfold CInt.in_range, CInt.INT_MIN, CInt.INT_MAX in *; nia).
  match goal with |- context [?a >? ?b] => destruct (Z.gtb_spec a b) end; lia.
Qed.

(** C4.  For [num_iterations >= 1], [num_procs >= 1] and a process rank
    [0 <= proc_id < num_procs] (the sum [num_iterations + num_procs]
    being an [int]), the block size computed by the program is
    [ceil (num_iterations / num_procs)] and the block of the process is
    [[proc_id * block_size, min ((proc_id + 1) * block_size, num_iterations))]. *)
Theorem block_partition (num_iterations num_procs proc_id : Z) :
  1 <= num_iterations -> 1 <= num_procs -> 0 <= proc_id < num_procs ->
  num_iterations + num_procs <= CInt.INT_MAX ->
  let bs := block_size num_iterations num_procs in
  num_procs * (bs - 1) < num_iterations <= num_procs * bs
  /\ block_start num_iterations num_procs proc_id = proc_id * bs
  /\ block_end num_iterations num_procs proc_id
     = Z.min ((proc_id + 1) * bs) num_iterations.
Proof.
  intros Hi Hp Hid Hmax bs.
  split; [exact (block_size_ceil _ _ Hi Hp Hmax)|].
  split; [exact (block_start_exact _ _ _ Hi Hp Hid Hmax)|].
  exact (block_end_exact _ _ _ Hi Hp Hid Hmax).
Qed.

Lemma block_partition_witness :
  block_size 5 4 = 2 /\ block_start 5 4 2 = 4 /\ block_end 5 4 2 = 5.
Proof.
  destruct (block_partition 5 4 2) as (_ & Hs & He);
    try (unfold CInt.INT_MAX; lia).
  split; [reflexivity|]. split; [exact Hs | exact He].
Defined.

(** ** The pre-flight check *)

Lemma check_errors_gmp_rejects
    (num_procs precision num_iterations num_threads proc_id algorithm : Z) :
  CInt.in_range (num_threads * num_procs) ->
  precision <= 0 \/ num_iterations < num_threads * num_procs ->
  exists msgs,
    check_errors_gmp num_procs precision num_iterations num_threads
      proc_id algorithm = (msgs ++ [MPI_Finalize; Exit (-1)], false)
    /\ forallb is_printf msgs = true
    /\ (msgs <> [] <-> proc_id = 0).
Proof.
  intros Hr Hbad. unfold check_errors_gmp.
  rewrite CIntFacts.mul_exact by assumption.
  destruct (Z.leb_spec precision 0) as [Hp | Hp].
  - destruct (Z.eqb_spec proc_id 0) as [H0 | H0]; eexists;
      (split; [reflexivity|]); (split; [reflexivity|]);
      split; intros; congruence.
  - destruct (Z.ltb_spec num_iterations (num_threads * num_procs)) as [Hi | Hi];
      [|lia].
    destruct (Z.eqb_spec proc_id 0) as [H0 | H0]; eexists;
      (split; [reflexivity|]); (split; [reflexivity|]);
      split; intros; congruence.
Qed.

Lemma check_errors_gmp_accepts
    (num_procs precision num_iterations num_threads proc_id algorithm : Z) :
  CInt.in_range (num_threads * num_procs) ->
  0 < precision -> num_threads * num_procs <= num_iterations ->
  check_errors_gmp num_procs precision num_iterations num_threads
    proc_id algorithm = ([], true).
Proof.
  intros Hr Hp Hi. unfold check_errors_gmp.
  rewrite CIntFacts.mul_exact by assumption.
  destruct (Z.leb_spec precision 0); [lia|].
  destruct (Z.ltb_spec num_iterations (num_threads * num_procs)); [lia|].
  reflexivity.
Qed.

(** ** The thread: what one pass and the initialisation compute *)

Lemma inject_Z_nonzero (z : Z) : z <> 0 -> ~ (inject_Z z == 0)%Q.
Proof.
  intros Hz. change 0%Q with (inject_Z 0). rewrite inject_Z_injective. exact Hz.
Qed.

Lemma fac_nat_pos (n : nat) : 0 < fac_nat n.
Proof.
  induction n as [|n IH]; [reflexivity|].
  change (fac_nat (S n)) with (Z.of_nat (S n) * fac_nat n). nia.
Qed.

Lemma loop_body_spec (num_threads i : Z) (s : store) :
  0 <= i -> 12 * i + 10 <= CInt.INT_MAX -> ~ (s Var.dep_b == 0)%Q ->
  exists s',
    loop_body num_threads i s = Ok s'
    /\ s' Var.local_thread_pi
       = (s Var.local_thread_pi + s Var.dep_a * s Var.dep_c / s Var.dep_b)%Q
    /\ s' Var.dep_a
       = (inject_Z (12 * i + 10) * inject_Z (12 * i + 6) * inject_Z (12 * i + 2)
          * s Var.dep_a / inject_Z (i + 1) ^ 3)%Q
    /\ s' Var.dep_b = (s Var.dep_b * s Var.c)%Q
    /\ s' Var.dep_c
       = (s Var.dep_c + inject_Z (CInt.to_ulong (CInt.mul B num_threads)))%Q
    /\ s' Var.c = s Var.c
    /\ s' Var.pi = s Var.pi /\ s' Var.local_proc_pi = s Var.local_proc_pi
    /\ s' Var.e = s Var.e.
Proof.
  intros Hi Hmax Hb.
  unfold loop_body, chudnovsky_iteration_gmp, advance.
  unfold mpf_div at 1. unfold mpf_mul at 1.
  replace (upd s Var.aux (s Var.dep_a * s Var.dep_c)%Q Var.dep_b)
    with (s Var.dep_b) by reflexivity.
  rewrite (Qis_zero_false _ Hb). cbn [bind].
  rewrite (CIntFacts.mul_exact 12 i) by int_exact.
  rewrite !CIntFacts.add_exact by int_exact.
  rewrite !CIntFacts.to_ulong_exact by int_exact.
  unfold mpf_div.
  match goal with
  | |- context [Qis_zero ?q] =>
      replace q with (inject_Z (i + 1) ^ 3)%Q by reflexivity
  end.
  rewrite Qis_zero_false
    by (apply Qpower_not_0, inject_Z_nonzero; lia).
  cbn [bind]. eexists. split; [reflexivity|].
  repeat split; reflexivity.
Qed.

(** The initialisation never fails: the divisor of [init_dep_a_gmp] is a
    product of factorials. *)
Lemma thread_init_spec (block_start thread_id : Z) (s : store) :
  let n := CInt.add block_start thread_id in
  exists s',
    thread_init block_start thread_id s = Ok s'
    /\ s' Var.local_thread_pi = 0%Q
    /\ s' Var.dep_a
       = (inject_Z (mpz_fac_ui (CInt.to_ulong (CInt.mul 6 n)))
          / inject_Z (mpz_fac_ui (CInt.to_ulong (CInt.mul 3 n))
                      * mpz_fac_ui (CInt.to_ulong n) ^ 3))%Q
    /\ s' Var.dep_b = (s Var.c ^ CInt.to_ulong n)%Q
    /\ s' Var.dep_c
       = (inject_Z B * inject_Z (CInt.to_ulong n) + inject_Z A)%Q
    /\ s' Var.c = s Var.c
    /\ s' Var.pi = s Var.pi /\ s' Var.local_proc_pi = s Var.local_proc_pi
    /\ s' Var.e = s Var.e.
Proof.
  intros n. unfold thread_init, init_dep_a_gmp. fold n.
  unfold mpf_div.
  match goal with
  | |- context [Qis_zero ?q] =>
      replace q
        with (inject_Z (mpz_fac_ui (CInt.to_ulong (CInt.mul 3 n))
                        * mpz_fac_ui (CInt.to_ulong n) ^ 3))
        by reflexivity
  end.
  rewrite Qis_zero_false.
  - cbn [bind]. eexists. split; [reflexivity|]. repeat split; reflexivity.
  - apply inject_Z_nonzero. unfold mpz_fac_ui.
    pose proof (fac_nat_pos (Z.to_nat (CInt.to_ulong (CInt.mul 3 n)))) as H3.
    pose proof (fac_nat_pos (Z.to_nat (CInt.to_ulong n))) as H1.
    assert (0 < fac_nat (Z.to_nat (CInt.to_ulong n)) ^ 3)
      by (apply Z.pow_pos_nonneg; lia).
    nia.
Qed.

(** ** The loop returns *)

Lemma thread_loop_ok (block_end num_threads : Z) (fuel : nat) :
  forall (i : Z) (s : store),
    0 <= i -> 1 <= num_threads ->
    12 * block_end <= CInt.INT_MAX -> block_end + num_threads <= CInt.INT_MAX ->
    ~ (s Var.dep_b == 0)%Q -> ~ (s Var.c == 0)%Q ->
    (Z.to_nat (block_end - i) <= fuel)%nat ->
    exists s',
      thread_loop fuel block_end num_threads i s = Ok s'
      /\ s' Var.c = s Var.c
      /\ s' Var.pi = s Var.pi /\ s' Var.local_proc_pi = s Var.local_proc_pi
      /\ s' Var.e = s Var.e.
Proof.
  induction fuel as [|fuel IH]; intros i s Hi Ht Hmax Hmax' Hb Hc Hfuel.
  - simpl. destruct (Z.ltb_spec i block_end) as [Hlt | Hge]; [lia|].
    exists s. repeat split; reflexivity.
  - simpl. destruct (Z.ltb_spec i block_end) as [Hlt | Hge].
    + destruct (loop_body_spec num_threads i s Hi ltac:(int_exact) Hb)
        as (s1 & Hrun & _ & _ & Hb1 & _ & Hc1 & Hpi1 & Hpp1 & He1).
      rewrite Hrun. cbn [bind].
      rewrite CIntFacts.add_exact by int_exact.
      destruct (IH (i + num_threads) s1) as (s' & Hrun' & Hc' & Hpi' & Hpp' & He');
        try assumption; try lia.
      * rewrite Hb1. intros H. apply Qmult_integral in H. tauto.
      * rewrite Hc1. exact Hc.
      * exists s'. split; [exact Hrun'|].
        repeat split; congruence.
    + exists s. repeat split; reflexivity.
Qed.

Lemma thread_run_ok (fuel : nat)
    (block_start block_end num_threads thread_id : Z) (s : store) :
  0 <= block_start -> 0 <= thread_id ->
  block_start + thread_id <= CInt.INT_MAX ->
  1 <= num_threads ->
  12 * block_end <= CInt.INT_MAX -> block_end + num_threads <= CInt.INT_MAX ->
  ~ (s Var.c == 0)%Q ->
  (Z.to_nat block_end <= fuel)%nat ->
  exists v,
    thread_run fuel block_start block_end num_threads thread_id s = Ok v.
Proof.
  intros Hbs Htid Hsum Ht Hmax Hmax' Hc Hfuel.
  unfold thread_run.
  destruct (thread_init_spec block_start thread_id s)
    as (s1 & Hinit & _ & _ & Hb1 & _ & Hc1 & _).
  rewrite Hinit. cbn [bind].
  rewrite CIntFacts.add_exact in * by int_exact.
  destruct (thread_loop_ok block_end num_threads fuel
              (block_start + thread_id) s1) as (s2 & Hloop & _);
    try assumption; try lia.
  - rewrite Hb1. apply Qpower_not_0. exact Hc.
  - rewrite Hc1. exact Hc.
  - rewrite Hloop. cbn [bind]. eexists. reflexivity.
Qed.

Lemma parallel_region_ok (fuel : nat) (block_start block_end num_threads : Z) :
  0 <= block_start -> 1 <= num_threads ->
  12 * block_end <= CInt.INT_MAX -> block_end + num_threads <= CInt.INT_MAX ->
  (Z.to_nat block_end <= fuel)%nat ->
  forall (thread_ids : list Z) (s : store),
    Forall (fun t => 0 <= t /\ block_start + t <= CInt.INT_MAX) thread_ids ->
    ~ (s Var.c == 0)%Q ->
    exists s',
      parallel_region fuel block_start block_end num_threads thread_ids s
      = Ok s'
      /\ s' Var.c = s Var.c /\ s' Var.pi = s Var.pi /\ s' Var.e = s Var.e.
Proof.
  intros Hbs Ht Hmax Hmax' Hfuel.
  induction thread_ids as [|t rest IH]; intros s Hall Hc.
  - exists s. repeat split; reflexivity.
  - inversion Hall as [|? ? [Ht0 Hsum] Hrest]; subst.
    destruct (thread_run_ok fuel block_start block_end num_threads t s)
      as (v & Hrun); try assumption.
    cbn [parallel_region]. rewrite Hrun. cbn [bind].
    destruct (IH (upd s Var.local_proc_pi (s Var.local_proc_pi + v)%Q) Hrest)
      as (s' & Hpar & Hc' & Hpi' & He'); [exact Hc|].
    exists s'. split; [exact Hpar|]. repeat split; assumption.
Qed.

Lemma team_bounds (num_threads : Z) :
  Forall (fun t => 0 <= t < num_threads) (team num_threads).
Proof.
  unfold team. apply Forall_forall. intros t Hin.
  apply in_map_iff in Hin. destruct Hin as (k & <- & Hk).
  apply in_seq in Hk. lia.
Qed.

Lemma block_end_le (num_iterations num_procs proc_id : Z) :
  block_end num_iterations num_procs proc_id <= num_iterations.
Proof.
  unfold block_end.
  match goal with |- context [?a >? ?b] => destruct (Z.gtb_spec a b) end; lia.
Qed.

Lemma c_nonzero (u : Z) : ~ ((- inject_Z C) ^ u == 0)%Q.
Proof. apply Qpower_not_0. unfold Qeq. simpl. discriminate. Qed.

Lemma accepted_bounds (num_procs num_iterations num_threads : Z) :
  accepted num_procs num_iterations num_threads ->
  1 <= num_procs <= num_iterations /\ 1 <= num_threads <= num_iterations
  /\ num_iterations <= 153391689.
Proof. unfold accepted, max_iterations. intros (Hp & Ht & Hprod & Hmax). nia. Qed.

(** Under an accepted configuration the local phase of every process
    returns, and leaves the caller's [pi] alone. *)
Lemma local_phase_ok (fuel : nat)
    (num_procs proc_id num_iterations num_threads : Z) (s : store) :
  accepted num_procs num_iterations num_threads ->
  0 <= proc_id < num_procs ->
  (Z.to_nat num_iterations <= fuel)%nat ->
  exists s',
    local_phase fuel num_procs proc_id num_iterations num_threads s = Ok s'
    /\ s' Var.pi = s Var.pi /\ s' Var.e = inject_Z E.
Proof.
  intros Hacc Hid Hfuel.
  destruct (accepted_bounds _ _ _ Hacc) as (Hp & Ht & Hmax).
  pose proof (block_end_le num_iterations num_procs proc_id) as Hbe.
  assert (Hsum : num_iterations + num_procs <= CInt.INT_MAX) by int_exact.
  pose proof (block_size_ceil num_iterations num_procs
                ltac:(lia) ltac:(lia) Hsum) as Hceil. cbv zeta in Hceil.
  pose proof (block_start_exact num_iterations num_procs proc_id
                ltac:(lia) ltac:(lia) Hid Hsum) as Hbs.
  unfold local_phase.
  destruct (parallel_region_ok fuel
              (block_start num_iterations num_procs proc_id)
              (block_end num_iterations num_procs proc_id) num_threads)
    with (thread_ids := team num_threads)
         (s := process_init num_threads s)
    as (s' & Hpar & _ & Hpi & He).
  - rewrite Hbs. nia.
  - lia.
  - int_exact.
  - int_exact.
  - lia.
  - eapply Forall_impl; [|apply team_bounds].
    intros t Ht'. cbv beta in *. rewrite Hbs. split; [lia|].
    unfold CInt.INT_MAX. nia.
  - apply c_nonzero.
  - exists s'. split; [exact Hpar|]. rewrite Hpi, He. split; reflexivity.
Qed.

(** ** A process whose block is empty *)








(** ** The precision in force *)

Lemma created_fixed (d : Z) (trace : list event) :
  existsb sets_precision trace = false ->
  Forall (fun xp => snd xp = d) (created d trace).
Proof.
  induction trace as [|ev trace IH]; intros H; [constructor|].
  simpl in H. apply orb_false_iff in H. destruct H as [Hev Hrest].
  destruct ev; simpl in *; try discriminate; try (apply IH; assumption).
  constructor; [reflexivity | apply IH; assumption].
Qed.

Lemma thread_events_keep_precision (thread_ids : list Z) :
  existsb sets_precision (flat_map thread_events thread_ids) = false.
Proof.
  induction thread_ids as [|t rest IH]; [reflexivity|].
  simpl. exact IH.
Qed.

Lemma algorithm_events_keep_precision
    (num_threads : Z) (sendbuffer : Q) (proc_id : Z) :
  existsb sets_precision (algorithm_events num_threads sendbuffer proc_id)
  = false.
Proof.
  unfold algorithm_events.
  rewrite !existsb_app, thread_events_keep_precision.
  destruct (proc_id =? 0); reflexivity.
Qed.

Lemma chudnovsky_algorithm_gmp_events
    (sqrt_approx : Q -> Q) (fuel : nat)
    (num_procs proc_id num_iterations num_threads : Z)
    (recbuffer : Q) (s s' : store) (trace : list event) :
  chudnovsky_algorithm_gmp sqrt_approx fuel num_procs proc_id num_iterations
    num_threads recbuffer s = Ok (s', trace) ->
  exists s1,
    local_phase fuel num_procs proc_id num_iterations num_threads s = Ok s1
    /\ final_assembly sqrt_approx proc_id recbuffer s1 = Ok s'
    /\ trace = algorithm_events num_threads (s1 Var.local_proc_pi) proc_id.
Proof.
  unfold chudnovsky_algorithm_gmp. intros H.
  destruct (local_phase fuel num_procs proc_id num_iterations num_threads s)
    as [s1| |]; cbn [bind] in H; try discriminate.
  destruct (final_assembly sqrt_approx proc_id recbuffer s1) as [s2| |] eqn:Hf;
    cbn [bind] in H; try discriminate.
  injection H as <- <-. exists s1. repeat split. exact Hf.
Qed.

(** ** Final assembly *)

Lemma final_assembly_root (sqrt_approx : Q -> Q) (recbuffer : Q) (s : store) :
  ~ (recbuffer == 0)%Q -> s Var.e = inject_Z E ->
  exists s',
    final_assembly sqrt_approx 0 recbuffer s = Ok s'
    /\ s' Var.pi = (sqrt_approx (inject_Z E) * inject_Z D / recbuffer)%Q.
Proof.
  intros Hr He. unfold final_assembly, mpf_div. cbn [Z.eqb].
  match goal with
  | |- context [Qis_zero ?q] => replace q with recbuffer by reflexivity
  end.
  rewrite (Qis_zero_false _ Hr). eexists. split; [reflexivity|].
  cbv [mpf_mul_ui mpf_sqrt upd Var.eqb]. rewrite He. reflexivity.
Qed.

(** C7.  On process 0, under an accepted configuration and for a reduced
    value that is not zero, [chudnovsky_algorithm_gmp] returns with
    [pi = sqrt (E) * D / recbuffer], where [recbuffer] is the value the
    reduction delivered, [E = 10005] and [D = 426880]; the root unpacks, and
    every [mpf_t] of the run, [e] included, is created under one and the same
    default precision. *)
Theorem final_assembly_at_root
    (sqrt_approx : Q -> Q) (fuel : nat)
    (num_procs num_iterations num_threads : Z) (recbuffer : Q) (s : store) :
  accepted num_procs num_iterations num_threads ->
  (Z.to_nat num_iterations <= fuel)%nat ->
  ~ (recbuffer == 0)%Q ->
  exists s' trace,
    chudnovsky_algorithm_gmp sqrt_approx fuel num_procs 0 num_iterations
      num_threads recbuffer s = Ok (s', trace)
    /\ s' Var.pi
       = (sqrt_approx (inject_Z 10005) * inject_Z 426880 / recbuffer)%Q
    /\ In Unpack trace
    /\ forall d, Forall (fun xp => snd xp = d) (created d trace).
Proof.
  intros Hacc Hfuel Hr.
  destruct (accepted_bounds _ _ _ Hacc) as (Hp & _).
  destruct (local_phase_ok fuel num_procs 0 num_iterations num_threads s
              Hacc ltac:(lia) Hfuel) as (s1 & Hloc & _ & He).
  destruct (final_assembly_root sqrt_approx recbuffer s1 Hr He)
    as (s' & Hfin & Hpi).
  exists s', (algorithm_events num_threads (s1 Var.local_proc_pi) 0).
  split; [|split; [exact Hpi|split]].
  - unfold chudnovsky_algorithm_gmp. rewrite Hloc. cbn [bind].
    rewrite Hfin. reflexivity.
  - unfold algorithm_events. rewrite !in_app_iff. right. right. right.
    left. reflexivity.
  - intros d. apply created_fixed, algorithm_events_keep_precision.
Qed.

Lemma final_assembly_at_root_witness :
  exists s' trace,
    chudnovsky_algorithm_gmp (sqrt_trunc 64) 2 1 0 2 1 (series_ref 2 0)
      empty_store = Ok (s', trace)
    /\ s' Var.pi
       = (sqrt_trunc 64 (inject_Z 10005) * inject_Z 426880 / series_ref 2 0)%Q.
Proof.
  destruct (final_assembly_at_root (sqrt_trunc 64) 2 1 2 1 (series_ref 2 0)
              empty_store) as (s' & trace & Hrun & Hpi & _).
  - unfold accepted, max_iterations. lia.
  - simpl. lia.
  - vm_compute. discriminate.
  - exists s', trace. split; [exact Hrun | exact Hpi].
Defined.

(** ** What a thread reads *)

Lemma loop_body_agree (num_threads i : Z) (s1 s2 : store) :
  agree s1 s2 ->
  related agree (loop_body num_threads i s1) (loop_body num_threads i s2).
Proof.
  intros (Hpi & Ha & Hb & Hc & Hcc).
  cbv [loop_body chudnovsky_iteration_gmp advance mpf_div mpf_mul mpf_add
       mpf_set_ui mpf_mul_ui mpf_pow_ui mpf_add_ui bind upd Var.eqb].
  rewrite Hb.
  destruct (Qis_zero (s2 Var.dep_b)); [exact I|].
  match goal with
  | |- context [Qis_zero ?q] => destruct (Qis_zero q)
  end; [exact I|].
  cbv [related agree]. rewrite Hpi, Ha, Hb, Hc, Hcc.
  repeat split; reflexivity.
Qed.

Lemma thread_loop_agree (block_end num_threads : Z) (fuel : nat) :
  forall (i : Z) (s1 s2 : store),
    agree s1 s2 ->
    related agree (thread_loop fuel block_end num_threads i s1)
                  (thread_loop fuel block_end num_threads i s2).
Proof.
  induction fuel as [|fuel IH]; intros i s1 s2 Hag; simpl;
    destruct (i <? block_end); try exact Hag; try exact I.
  pose proof (loop_body_agree num_threads i s1 s2 Hag) as Hbody.
  destruct (loop_body num_threads i s1) as [t1| |],
           (loop_body num_threads i s2) as [t2| |];
    cbn [related bind] in *; try contradiction; try exact I.
  apply IH. exact Hbody.
Qed.

Lemma thread_init_agree (block_start thread_id : Z) (s1 s2 : store) :
  s1 Var.c = s2 Var.c ->
  exists t1 t2,
    thread_init block_start thread_id s1 = Ok t1
    /\ thread_init block_start thread_id s2 = Ok t2
    /\ agree t1 t2.
Proof.
  intros Hc.
  destruct (thread_init_spec block_start thread_id s1)
    as (t1 & H1 & Hp1 & Ha1 & Hb1 & Hc1 & Hcc1 & _).
  destruct (thread_init_spec block_start thread_id s2)
    as (t2 & H2 & Hp2 & Ha2 & Hb2 & Hc2 & Hcc2 & _).
  exists t1, t2. split; [exact H1|]. split; [exact H2|].
  unfold agree. rewrite Hp1, Hp2, Ha1, Ha2, Hb1, Hb2, Hc1, Hc2, Hcc1, Hcc2, Hc.
  repeat split; reflexivity.
Qed.

(** A thread depends on the store of its process through [c] only. *)
Lemma thread_run_ext (fuel : nat)
    (block_start block_end num_threads thread_id : Z) (s1 s2 : store) :
  s1 Var.c = s2 Var.c ->
  thread_run fuel block_start block_end num_threads thread_id s1
  = thread_run fuel block_start block_end num_threads thread_id s2.
Proof.
  intros Hc. unfold thread_run.
  destruct (thread_init_agree block_start thread_id s1 s2 Hc)
    as (t1 & t2 & H1 & H2 & Hag).
  rewrite H1, H2. cbn [bind].
  pose proof (thread_loop_agree block_end num_threads fuel
                (CInt.add block_start thread_id) t1 t2 Hag) as Hloop.
  destruct (thread_loop fuel block_end num_threads
              (CInt.add block_start thread_id) t1) as [u1| |],
           (thread_loop fuel block_end num_threads
              (CInt.add block_start thread_id) t2) as [u2| |];
    cbn [related bind] in *; try contradiction; try reflexivity.
  destruct Hloop as (Hpi & _). rewrite Hpi. reflexivity.
Qed.

Lemma parallel_region_ext (fuel : nat)
    (block_start block_end num_threads : Z) (thread_ids : list Z) :
  forall s1 s2 : store,
    same_total s1 s2 ->
    related same_total
      (parallel_region fuel block_start block_end num_threads thread_ids s1)
      (parallel_region fuel block_start block_end num_threads thread_ids s2).
Proof.
  induction thread_ids as [|t rest IH]; intros s1 s2 [Hp Hc].
  - split; assumption.
  - cbn [parallel_region].
    rewrite (thread_run_ext fuel block_start block_end num_threads t s1 s2 Hc).
    destruct (thread_run fuel block_start block_end num_threads t s2)
      as [v| |]; cbn [bind related]; try exact I.
    apply IH. split.
    + rewrite !upd_same, Hp. reflexivity.
    + rewrite !upd_other by discriminate. exact Hc.
Qed.

(** The total of a process does not depend on the store it starts from. *)
Lemma local_phase_ext (fuel : nat)
    (num_procs proc_id num_iterations num_threads : Z) (s1 s2 : store) :
  related same_total
    (local_phase fuel num_procs proc_id num_iterations num_threads s1)
    (local_phase fuel num_procs proc_id num_iterations num_threads s2).
Proof.
  unfold local_phase. apply parallel_region_ext.
  split; reflexivity.
Qed.

(** ** Processes other than the root *)

Lemma thread_events_no_unpack (thread_ids : list Z) :
  ~ In Unpack (flat_map thread_events thread_ids).
Proof.
  intros H. apply in_flat_map in H. destruct H as (t & _ & H).
  simpl in H. repeat (destruct H as [H | H]; [discriminate|]). exact H.
Qed.

Lemma algorithm_events_no_unpack
    (num_threads : Z) (sendbuffer : Q) (proc_id : Z) :
  proc_id <> 0 ->
  ~ In Unpack (algorithm_events num_threads sendbuffer proc_id).
Proof.
  intros Hnr H. unfold algorithm_events in H.
  destruct (Z.eqb_spec proc_id 0) as [H0 | _]; [contradiction|].
  rewrite !in_app_iff in H.
  destruct H as [H | [H | [H | H]]].
  - simpl in H. repeat (destruct H as [H | H]; [discriminate|]). exact H.
  - exact (thread_events_no_unpack _ H).
  - simpl in H. repeat (destruct H as [H | H]; [discriminate|]). exact H.
  - exact H.
Qed.

(** C9.  On a process that is not the root, under an accepted configuration,
    [chudnovsky_algorithm_gmp] returns with [pi] as it was passed in and
    without unpacking; and whatever [pi] holds on entry, and whatever the
    receive buffer holds, the calls made and the value packed are the same
    and [pi] still holds on exit what it held on entry. *)
Theorem non_root_leaves_pi
    (sqrt_approx : Q -> Q) (fuel : nat)
    (num_procs proc_id num_iterations num_threads : Z)
    (recbuffer : Q) (s : store) :
  accepted num_procs num_iterations num_threads ->
  0 <= proc_id < num_procs -> proc_id <> 0 ->
  (Z.to_nat num_iterations <= fuel)%nat ->
  exists s' trace,
    chudnovsky_algorithm_gmp sqrt_approx fuel num_procs proc_id
      num_iterations num_threads recbuffer s = Ok (s', trace)
    /\ s' Var.pi = s Var.pi
    /\ ~ In Unpack trace
    /\ forall (v recbuffer' : Q),
         exists s'',
           chudnovsky_algorithm_gmp sqrt_approx fuel num_procs proc_id
             num_iterations num_threads recbuffer' (upd s Var.pi v)
           = Ok (s'', trace)
           /\ s'' Var.pi = v.
Proof.
  intros Hacc Hid Hnr Hfuel.
  destruct (local_phase_ok fuel num_procs proc_id num_iterations num_threads s
              Hacc Hid Hfuel) as (s1 & Hloc & Hpi & _).
  exists s1, (algorithm_events num_threads (s1 Var.local_proc_pi) proc_id).
  assert (Hfin : forall r t, final_assembly sqrt_approx proc_id r t = Ok t).
  { intros r t. unfold final_assembly.
    destruct (Z.eqb_spec proc_id 0); [contradiction | reflexivity]. }
  split; [|split; [exact Hpi|split]].
  - unfold chudnovsky_algorithm_gmp. rewrite Hloc. cbn [bind].
    rewrite Hfin. reflexivity.
  - apply algorithm_events_no_unpack. exact Hnr.
  - intros v recbuffer'.
    destruct (local_phase_ok fuel num_procs proc_id num_iterations num_threads
                (upd s Var.pi v) Hacc Hid Hfuel) as (s2 & Hloc2 & Hpi2 & _).
    pose proof (local_phase_ext fuel num_procs proc_id num_iterations
                  num_threads s (upd s Var.pi v)) as Hext.
    rewrite Hloc, Hloc2 in Hext. destruct Hext as [Htot _].
    exists s2. split.
    + unfold chudnovsky_algorithm_gmp. rewrite Hloc2. cbn [bind].
      rewrite Hfin. cbn [bind]. rewrite Htot. reflexivity.
    + rewrite Hpi2. apply upd_same.
Qed.

Lemma non_root_leaves_pi_witness :
  exists s' trace,
    chudnovsky_algorithm_gmp (sqrt_trunc 64) 2 2 1 2 1 0 empty_store
    = Ok (s', trace)
    /\ s' Var.pi = 0%Q.
Proof.
  destruct (non_root_leaves_pi (sqrt_trunc 64) 2 2 1 2 1 0 empty_store)
    as (s' & trace & Hrun & Hpi & _).
  - unfold accepted, max_iterations. lia.
  - lia.
  - discriminate.
  - simpl. lia.
  - exists s', trace. split; [exact Hrun | exact Hpi].
Defined.

(** ** The whole function returns *)

Lemma chudnovsky_algorithm_gmp_returns
    (sqrt_approx : Q -> Q) (fuel : nat)
    (num_procs proc_id num_iterations num_threads : Z)
    (recbuffer : Q) (s : store) :
  accepted num_procs num_iterations num_threads ->
  0 <= proc_id < num_procs ->
  (Z.to_nat num_iterations <= fuel)%nat ->
  ~ (recbuffer == 0)%Q ->
  exists s' sendbuffer,
    chudnovsky_algorithm_gmp sqrt_approx fuel num_procs proc_id
      num_iterations num_threads recbuffer s
    = Ok (s', algorithm_events num_threads sendbuffer proc_id).
Proof.
  intros Hacc Hid Hfuel Hr.
  destruct (local_phase_ok fuel num_procs proc_id num_iterations num_threads s
              Hacc Hid Hfuel) as (s1 & Hloc & _ & He).
  unfold chudnovsky_algorithm_gmp. rewrite Hloc. cbn [bind].
  destruct (Z.eq_dec proc_id 0) as [-> | Hnr].
  - destruct (final_assembly_root sqrt_approx recbuffer s1 Hr He)
      as (s' & Hfin & _).
    rewrite Hfin. cbn [bind]. eexists. eexists. reflexivity.
  - unfold final_assembly.
    destruct (Z.eqb_spec proc_id 0); [contradiction|].
    cbn [bind]. eexists. eexists. reflexivity.
Qed.

(** ** The update of the dependencies *)

Lemma advance_spec (num_threads i : Z) (s : store) :
  0 <= i -> 12 * i + 10 <= CInt.INT_MAX ->
  exists s',
    advance num_threads i s = Ok s'
    /\ s' Var.dep_a
       = (inject_Z (12 * i + 10) * inject_Z (12 * i + 6) * inject_Z (12 * i + 2)
          * s Var.dep_a / inject_Z (i + 1) ^ 3)%Q
    /\ s' Var.dep_b = (s Var.dep_b * s Var.c)%Q
    /\ s' Var.dep_c
       = (s Var.dep_c + inject_Z (CInt.to_ulong (CInt.mul B num_threads)))%Q
    /\ s' Var.c = s Var.c.
Proof.
  intros Hi Hmax. unfold advance.
  rewrite (CIntFacts.mul_exact 12 i) by int_exact.
  rewrite !CIntFacts.add_exact by int_exact.
  rewrite !CIntFacts.to_ulong_exact by int_exact.
  unfold mpf_div.
  match goal with
  | |- context [Qis_zero ?q] =>
      replace q with (inject_Z (i + 1) ^ 3)%Q by reflexivity
  end.
  rewrite Qis_zero_false
    by (apply Qpower_not_0, inject_Z_nonzero; lia).
  cbn [bind]. eexists. split; [reflexivity|].
  repeat split; reflexivity.
Qed.

(** Up to three threads the product [B * num_threads] fits an [int]. *)
Lemma dep_c_step_up_to_three_threads (num_threads : Z) :
  1 <= num_threads <= 3 ->
  CInt.to_ulong (CInt.mul B num_threads) = 545140134 * num_threads.
Proof.
  intros H. unfold B.
  rewrite CIntFacts.mul_exact by int_exact.
  apply CIntFacts.to_ulong_exact. int_exact.
Qed.

Lemma Qplus_differs (x : Q) (a b : Z) :
  a <> b -> ~ (x + inject_Z a == x + inject_Z b)%Q.
Proof.
  intros Hab H. apply Qplus_inj_l in H.
  apply (proj1 (inject_Z_injective a b)) in H. contradiction.
Qed.

(** C3.  With 8 threads the update adds [66153776] to [dep_c], which is
    [545140134 * 8] wrapped to 32 bits, and with 4 threads it adds
    [18446744071595144856], the wrapped and negative product read as an
    [unsigned long]; neither is [545140134 * num_threads]. *)
Theorem dep_c_step_overflows (s : store) :
  (exists s',
     advance 8 0 s = Ok s'
     /\ s' Var.dep_c = (s Var.dep_c + inject_Z 66153776)%Q
     /\ ~ (s' Var.dep_c == s Var.dep_c + inject_Z (545140134 * 8))%Q)
  /\ (exists s',
        advance 4 0 s = Ok s'
        /\ s' Var.dep_c = (s Var.dep_c + inject_Z 18446744071595144856)%Q
        /\ ~ (s' Var.dep_c == s Var.dep_c + inject_Z (545140134 * 4))%Q).
Proof.
  split.
  - destruct (advance_spec 8 0 s) as (s' & Hrun & _ & _ & Hc & _);
      [lia | int_exact |].
    exists s'. split; [exact Hrun|]. split; [exact Hc|].
    rewrite Hc. apply Qplus_differs. vm_compute. discriminate.
  - destruct (advance_spec 4 0 s) as (s' & Hrun & _ & _ & Hc & _);
      [lia | int_exact |].
    exists s'. split; [exact Hrun|]. split; [exact Hc|].
    rewrite Hc. apply Qplus_differs. vm_compute. discriminate.
Qed.

(** ** Direct initialisation against repeated update, two threads *)

(** C2.  In a process of two threads: the state initialised directly at
    index 1 has [dep_b = (-640320)^6], where the header of the file gives
    [(-640320)^3], and differs from the state reached from index 0 by one
    update in [dep_c] ([A + B] against [A + 2 B]); the state reached by one
    update, which the loop uses for index 2, differs from the state
    initialised directly at index 2 in [dep_a] ([120] against [83160]) and
    in [dep_b]. *)
Theorem direct_state_differs_from_advanced_state :
  dependencies (direct_state 2 1)
  = Some (120%Q, inject_Z (C ^ 6), inject_Z (A + B))
  /\ dependencies (advanced_state 2 1)
     = Some (120%Q, inject_Z (C ^ 6), inject_Z (A + 2 * B))
  /\ dependencies (direct_state 2 2)
     = Some (83160%Q, inject_Z (C ^ 12), inject_Z (A + 2 * B))
  /\ Qred (dep_b_ref 1) = inject_Z (- C ^ 3)
  /\ dependencies (direct_state 2 1) <> dependencies (advanced_state 2 1)
  /\ dependencies (advanced_state 2 1) <> dependencies (direct_state 2 2).
Proof.
  repeat split; try (vm_compute; reflexivity); vm_compute; discriminate.
Qed.

(** ** The parallel sum against the sequential pass, two threads *)

(** C1.  Two iterations on one process with two threads pass the pre-flight
    check (precision 15), and the sum the program reduces differs from the
    sum of the sequential pass (one process, one thread), which is the sum
    of the terms 0 and 1 of the series: the difference exceeds [2^-46] of the
    sum, where the working precision is 120 bits. *)
Theorem parallel_sum_differs_from_sequential :
  check_errors_gmp 1 15 (chudnovsky_iterations 15) 2 0 3 = ([], true)
  /\ chudnovsky_iterations 15 = 2
  /\ exists par seq,
       global_sum 2 1 2 2 = Ok par
       /\ global_sum 2 1 2 1 = Ok seq
       /\ (seq == series_ref 2 0)%Q
       /\ ~ (par == seq)%Q
       /\ (Qabs seq < Qabs (par - seq) * inject_Z (2 ^ 46))%Q.
Proof.
  split; [reflexivity|]. split; [reflexivity|].
  destruct (global_sum 2 1 2 2) as [par| |] eqn:Hpar;
    try (vm_compute in Hpar; discriminate).
  destruct (global_sum 2 1 2 1) as [seq| |] eqn:Hseq;
    try (vm_compute in Hseq; discriminate).
  exists par, seq. split; [reflexivity|]. split; [reflexivity|].
  vm_compute in Hpar. vm_compute in Hseq.
  injection Hpar as <-. injection Hseq as <-.
  split; [|split].
  - vm_compute. reflexivity.
  - vm_compute. discriminate.
  - vm_compute. reflexivity.
Qed.

(** ** One thread per process: the recurrences of the header hold *)

Lemma mpz_fac_ui_succ (u : Z) :
  0 <= u -> mpz_fac_ui (u + 1) = (u + 1) * mpz_fac_ui u.
Proof.
  intros Hu. unfold mpz_fac_ui.
  replace (u + 1) with (Z.succ u) by lia.
  rewrite Z2Nat.inj_succ by lia.
  change (fac_nat (S (Z.to_nat u)))
    with (Z.of_nat (S (Z.to_nat u)) * fac_nat (Z.to_nat u)).
  rewrite Nat2Z.inj_succ, Z2Nat.id by lia. reflexivity.
Qed.

Lemma mpz_fac_ui_pos (u : Z) : 0 < mpz_fac_ui u.
Proof. apply fac_nat_pos. Qed.

Lemma mpz_fac_ui_3 (n : Z) :
  0 <= n ->
  mpz_fac_ui (3 * (n + 1))
  = (3 * n + 3) * (3 * n + 2) * (3 * n + 1) * mpz_fac_ui (3 * n).
Proof.
  intros Hn.
  replace (3 * (n + 1)) with (3 * n + 1 + 1 + 1) by lia.
  rewrite !mpz_fac_ui_succ by lia. ring.
Qed.

Lemma mpz_fac_ui_6 (n : Z) :
  0 <= n ->
  mpz_fac_ui (6 * (n + 1))
  = (6 * n + 6) * (6 * n + 5) * (6 * n + 4) * (6 * n + 3) * (6 * n + 2)
    * (6 * n + 1) * mpz_fac_ui (6 * n).
Proof.
  intros Hn.
  replace (6 * (n + 1)) with (6 * n + 1 + 1 + 1 + 1 + 1 + 1) by lia.
  rewrite !mpz_fac_ui_succ by lia. ring.
Qed.

Lemma dep_a_ref_step (n : Z) :
  0 <= n ->
  (inject_Z (12 * n + 10) * inject_Z (12 * n + 6) * inject_Z (12 * n + 2)
   * dep_a_ref n / inject_Z (n + 1) ^ 3 == dep_a_ref (n + 1))%Q.
Proof.
  intros Hn. unfold dep_a_ref.
  rewrite mpz_fac_ui_6, mpz_fac_ui_3, mpz_fac_ui_succ by lia.
  pose proof (mpz_fac_ui_pos (6 * n)) as H6.
  pose proof (mpz_fac_ui_pos (3 * n)) as H3.
  pose proof (mpz_fac_ui_pos n) as H1.
  set (f6 := mpz_fac_ui (6 * n)) in *.
  set (f3 := mpz_fac_ui (3 * n)) in *.
  set (f1 := mpz_fac_ui n) in *.
  replace (((n + 1) * f1) ^ 3) with ((n+1)*f1 * ((n+1)*f1) * ((n+1)*f1)) by ring.
  replace (f1 ^ 3) with (f1 * f1 * f1) by ring.
  rewrite !inject_Z_mult, !inject_Z_plus, !inject_Z_mult.
  assert (Hf3 : ~ (inject_Z f3 == 0)%Q) by (apply inject_Z_nonzero; lia).
  assert (Hf1 : ~ (inject_Z f1 == 0)%Q) by (apply inject_Z_nonzero; lia).
  assert (Hn1 : ~ (inject_Z n + inject_Z 1 == 0)%Q).
  { rewrite <- inject_Z_plus. apply inject_Z_nonzero. lia. }
  assert (Hn3 : ~ (inject_Z 3 * inject_Z n + inject_Z 3 == 0)%Q).
  { rewrite <- inject_Z_mult, <- inject_Z_plus. apply inject_Z_nonzero. lia. }
  assert (Hn2 : ~ (inject_Z 3 * inject_Z n + inject_Z 2 == 0)%Q).
  { rewrite <- inject_Z_mult, <- inject_Z_plus. apply inject_Z_nonzero. lia. }
  assert (Hn0 : ~ (inject_Z 3 * inject_Z n + inject_Z 1 == 0)%Q).
  { rewrite <- inject_Z_mult, <- inject_Z_plus. apply inject_Z_nonzero. lia. }
  set (q := inject_Z n) in *. set (a := inject_Z f6). set (b := inject_Z f3) in *.
  set (c := inject_Z f1) in *.
  change (inject_Z 12) with 12%Q. change (inject_Z 10) with 10%Q.
  change (inject_Z 6) with 6%Q. change (inject_Z 2) with 2%Q.
  change (inject_Z 5) with 5%Q. change (inject_Z 4) with 4%Q.
  change (inject_Z 3) with 3%Q in *. change (inject_Z 1) with 1%Q in *.
  change (inject_Z 2) with 2%Q in *.
  field. repeat split; assumption.
Qed.

Lemma dep_b_ref_step (n : Z) :
  0 <= n -> (dep_b_ref n * (- inject_Z C) ^ 3 == dep_b_ref (n + 1))%Q.
Proof.
  intros Hn. unfold dep_b_ref.
  replace (3 * (n + 1)) with (3 * n + 3) by lia.
  rewrite Qpower_plus by (unfold Qeq; simpl; discriminate).
  reflexivity.
Qed.

Lemma dep_c_ref_step (n : Z) :
  (dep_c_ref n + inject_Z B == dep_c_ref (n + 1))%Q.
Proof.
  unfold dep_c_ref. rewrite <- inject_Z_plus.
  apply inject_Z_injective. ring.
Qed.

Lemma dep_b_ref_nonzero (n : Z) : ~ (dep_b_ref n == 0)%Q.
Proof.
  unfold dep_b_ref. apply Qpower_not_0. unfold Qeq. simpl. discriminate.
Qed.

Lemma process_init_c_one_thread (s : store) :
  process_init 1 s Var.c = ((- inject_Z C) ^ 3)%Q.
Proof. reflexivity. Qed.

Lemma thread_init_at_index (n : Z) (s : store) :
  0 <= n -> 6 * n <= CInt.INT_MAX ->
  s Var.c = ((- inject_Z C) ^ 3)%Q ->
  exists s',
    thread_init n 0 s = Ok s'
    /\ at_index s' n /\ s' Var.local_thread_pi = 0%Q.
Proof.
  intros Hn Hmax Hc.
  destruct (thread_init_spec n 0 s)
    as (s' & Hrun & Hpi & Ha & Hb & Hdc & Hcc & _).
  cbv zeta in *.
  rewrite CIntFacts.add_exact in * by int_exact.
  rewrite !CIntFacts.mul_exact in * by int_exact.
  rewrite !CIntFacts.to_ulong_exact in * by int_exact.
  replace (n + 0) with n in * by lia.
  exists s'. split; [exact Hrun|]. split; [|exact Hpi].
  unfold at_index. rewrite Ha, Hb, Hdc, Hcc, Hc.
  split; [|split; [|split]].
  - unfold dep_a_ref. rewrite (Z.mul_comm (mpz_fac_ui (3 * n))). reflexivity.
  - unfold dep_b_ref. rewrite <- Qpower_mult. reflexivity.
  - unfold dep_c_ref. rewrite inject_Z_plus, inject_Z_mult. reflexivity.
  - reflexivity.
Qed.

Lemma loop_body_at_index (n : Z) (s : store) :
  0 <= n -> 12 * n + 10 <= CInt.INT_MAX -> at_index s n ->
  exists s',
    loop_body 1 n s = Ok s'
    /\ at_index s' (n + 1)
    /\ (s' Var.local_thread_pi == s Var.local_thread_pi + term_ref n)%Q.
Proof.
  intros Hn Hmax (Ha & Hb & Hc & Hcc).
  assert (Hnz : ~ (s Var.dep_b == 0)%Q).
  { rewrite Hb. apply dep_b_ref_nonzero. }
  destruct (loop_body_spec 1 n s Hn Hmax Hnz)
    as (s' & Hrun & Hpi' & Ha' & Hb' & Hc' & Hcc' & _).
  exists s'. split; [exact Hrun|]. split.
  - unfold at_index. rewrite Ha', Hb', Hc', Hcc', Hcc.
    split; [|split; [|split]].
    + rewrite Ha. apply dep_a_ref_step. exact Hn.
    + rewrite Hb. apply dep_b_ref_step. exact Hn.
    + rewrite Hc. apply dep_c_ref_step.
    + reflexivity.
  - rewrite Hpi'. unfold term_ref. rewrite Ha, Hb, Hc. reflexivity.
Qed.

Lemma series_ref_next (count : nat) (first : Z) :
  series_ref (S count) first
  = (term_ref first + series_ref count (first + 1))%Q.
Proof. reflexivity. Qed.

Lemma thread_loop_one_thread (block_end : Z) (fuel : nat) :
  forall (i : Z) (s : store),
    0 <= i -> 12 * block_end <= CInt.INT_MAX ->
    at_index s i ->
    (Z.to_nat (block_end - i) <= fuel)%nat ->
    exists s',
      thread_loop fuel block_end 1 i s = Ok s'
      /\ (s' Var.local_thread_pi
          == s Var.local_thread_pi
             + series_ref (Z.to_nat (block_end - i)) i)%Q.
Proof.
  induction fuel as [|fuel IH]; intros i s Hi Hmax Hat Hfuel.
  - simpl. destruct (Z.ltb_spec i block_end) as [Hlt | Hge]; [lia|].
    exists s. split; [reflexivity|].
    replace (Z.to_nat (block_end - i)) with 0%nat by lia.
    simpl. ring.
  - simpl. destruct (Z.ltb_spec i block_end) as [Hlt | Hge].
    + destruct (loop_body_at_index i s Hi ltac:(int_exact) Hat)
        as (s1 & Hrun & Hat1 & Hpi1).
      rewrite Hrun. cbn [bind].
      rewrite CIntFacts.add_exact by int_exact.
      destruct (IH (i + 1) s1 ltac:(lia) Hmax Hat1 ltac:(lia))
        as (s' & Hloop & Hpi').
      exists s'. split; [exact Hloop|].
      replace (Z.to_nat (block_end - i))
        with (S (Z.to_nat (block_end - (i + 1)))) by lia.
      rewrite series_ref_next, Hpi', Hpi1. ring.
    + exists s. split; [reflexivity|].
      replace (Z.to_nat (block_end - i)) with 0%nat by lia.
      simpl. ring.
Qed.

Lemma thread_run_one_thread (fuel : nat) (block_start block_end : Z)
    (s : store) :
  0 <= block_start -> 6 * block_start <= CInt.INT_MAX ->
  12 * block_end <= CInt.INT_MAX ->
  s Var.c = ((- inject_Z C) ^ 3)%Q ->
  (Z.to_nat block_end <= fuel)%nat ->
  exists v,
    thread_run fuel block_start block_end 1 0 s = Ok v
    /\ (v == series_ref (Z.to_nat (block_end - block_start)) block_start)%Q.
Proof.
  intros Hb Hmax6 Hmax12 Hc Hfuel. unfold thread_run.
  destruct (thread_init_at_index block_start s Hb Hmax6 Hc)
    as (s1 & Hinit & Hat & Hzero).
  rewrite Hinit. cbn [bind].
  rewrite CIntFacts.add_exact by int_exact.
  replace (block_start + 0) with block_start by lia.
  destruct (thread_loop_one_thread block_end fuel block_start s1
              Hb Hmax12 Hat ltac:(lia)) as (s2 & Hloop & Hpi).
  rewrite Hloop. cbn [bind]. eexists. split; [reflexivity|].
  rewrite Hpi, Hzero. ring.
Qed.

(** With one thread, the total of a process is the sum of the terms of its
    block. *)
Lemma process_total_one_thread (fuel : nat)
    (num_procs proc_id num_iterations : Z) :
  accepted num_procs num_iterations 1 ->
  0 <= proc_id < num_procs ->
  (Z.to_nat num_iterations <= fuel)%nat ->
  exists v,
    process_total fuel num_procs proc_id num_iterations 1 = Ok v
    /\ (v == series_ref
               (Z.to_nat (block_end num_iterations num_procs proc_id
                          - block_start num_iterations num_procs proc_id))
               (block_start num_iterations num_procs proc_id))%Q.
Proof.
  intros Hacc Hid Hfuel.
  destruct (accepted_bounds _ _ _ Hacc) as (Hp & Ht & Hmax).
  assert (Hsum : num_iterations + num_procs <= CInt.INT_MAX) by int_exact.
  pose proof (block_size_ceil num_iterations num_procs
                ltac:(lia) ltac:(lia) Hsum) as Hceil. cbv zeta in Hceil.
  pose proof (block_start_exact num_iterations num_procs proc_id
                ltac:(lia) ltac:(lia) Hid Hsum) as Hbs.
  pose proof (block_end_le num_iterations num_procs proc_id) as Hbe.
  unfold process_total, local_phase.
  change (team 1) with [0]. cbn [parallel_region].
  destruct (thread_run_one_thread fuel
              (block_start num_iterations num_procs proc_id)
              (block_end num_iterations num_procs proc_id)
              (process_init 1 empty_store)) as (v & Hrun & Hv).
  - rewrite Hbs. nia.
  - rewrite Hbs. unfold CInt.INT_MAX. nia.
  - int_exact.
  - reflexivity.
  - lia.
  - rewrite Hrun. cbn [bind]. eexists. split; [reflexivity|].
    rewrite upd_same. change (process_init 1 empty_store Var.local_proc_pi)
      with 0%Q. rewrite Hv. ring.
Qed.

Lemma series_ref_app (a b : nat) :
  forall first : Z,
    (series_ref (a + b) first
     == series_ref a first + series_ref b (first + Z.of_nat a))%Q.
Proof.
  induction a as [|a IH]; intros first.
  - simpl. replace (first + 0) with first by lia. ring.
  - change (S a + b)%nat with (S (a + b)).
    rewrite !series_ref_next, IH.
    replace (first + 1 + Z.of_nat a) with (first + Z.of_nat (S a)) by lia.
    ring.
Qed.

(** With one thread per process, the blocks of consecutive processes add up
    to a contiguous run of the series. *)
Lemma reduce_to_root_one_thread (fuel : nat) (num_procs num_iterations : Z) :
  accepted num_procs num_iterations 1 ->
  (Z.to_nat num_iterations <= fuel)%nat ->
  let lo := fun p : nat =>
    Z.min (Z.of_nat p * block_size num_iterations num_procs) num_iterations in
  forall (count first : nat),
    (first + count <= Z.to_nat num_procs)%nat ->
    exists v,
      reduce_to_root fuel num_procs num_iterations 1
        (map Z.of_nat (seq first count)) = Ok v
      /\ (v == series_ref (Z.to_nat (lo (first + count)%nat - lo first))
                 (lo first))%Q.
Proof.
  intros Hacc Hfuel lo.
  destruct (accepted_bounds _ _ _ Hacc) as (Hp & Ht & Hmax).
  assert (Hsum : num_iterations + num_procs <= CInt.INT_MAX) by int_exact.
  pose proof (block_size_ceil num_iterations num_procs
                ltac:(lia) ltac:(lia) Hsum) as Hceil. cbv zeta in Hceil.
  set (bs := block_size num_iterations num_procs) in *.
  assert (Hbs1 : 1 <= bs) by nia.
  induction count as [|count IH]; intros first Hle.
  - exists 0%Q. split; [reflexivity|].
    replace (first + 0)%nat with first by lia.
    replace (Z.to_nat (lo first - lo first)) with 0%nat by lia.
    reflexivity.
  - cbn [seq map reduce_to_root].
    assert (Hid : 0 <= Z.of_nat first < num_procs) by lia.
    destruct (process_total_one_thread fuel num_procs (Z.of_nat first)
                num_iterations Hacc Hid Hfuel) as (a & Hrun & Ha).
    rewrite Hrun. cbn [bind].
    destruct (IH (S first) ltac:(lia)) as (b & Hrest & Hb).
    rewrite Hrest. cbn [bind]. eexists. split; [reflexivity|].
    rewrite block_start_exact, block_end_exact in Ha by lia.
    fold bs in Ha.
    assert (Hx : Z.of_nat (S first) * bs = Z.of_nat first * bs + bs) by lia.
    assert (Hy : Z.of_nat (S first + count) * bs
                 = Z.of_nat first * bs + bs + Z.of_nat count * bs) by lia.
    assert (Hk : 0 <= Z.of_nat count * bs) by nia.
    assert (H0 : 0 <= Z.of_nat first * bs) by nia.
    replace (first + S count)%nat with (S first + count)%nat by lia.
    unfold lo in *. rewrite Hx in Hb. rewrite Hy in *.
    replace ((Z.of_nat first + 1) * bs) with (Z.of_nat first * bs + bs)
      in Ha by lia.
    set (x := Z.of_nat first * bs) in *.
    set (k := Z.of_nat count * bs) in *.
    set (n1 := Z.to_nat (Z.min (x + bs) num_iterations - Z.min x num_iterations)).
    assert (Ha' : (a == series_ref n1 (Z.min x num_iterations))%Q).
    { rewrite Ha. subst n1.
      destruct (Z_le_gt_dec x num_iterations) as [Hin | Hout].
      - replace (Z.min x num_iterations) with x by lia. reflexivity.
      - replace (Z.to_nat (Z.min (x + bs) num_iterations - x)) with 0%nat by lia.
        replace (Z.to_nat (Z.min (x + bs) num_iterations
                           - Z.min x num_iterations)) with 0%nat by lia.
        reflexivity. }
    rewrite Ha', Hb.
    replace (Z.min (x + bs) num_iterations)
      with (Z.min x num_iterations + Z.of_nat n1) by lia.
    rewrite <- series_ref_app.
    replace (n1 + Z.to_nat (Z.min (x + bs + k) num_iterations
                            - (Z.min x num_iterations + Z.of_nat n1)))%nat
      with (Z.to_nat (Z.min (x + bs + k) num_iterations
                      - Z.min x num_iterations)) by lia.
    reflexivity.
Qed.

(** With one thread per process, whatever the number of processes, the
    program reduces the sum of the terms [0] to [num_iterations - 1] of the
    series of the header. *)
Lemma global_sum_one_thread (fuel : nat) (num_procs num_iterations : Z) :
  accepted num_procs num_iterations 1 ->
  (Z.to_nat num_iterations <= fuel)%nat ->
  exists v,
    global_sum fuel num_procs num_iterations 1 = Ok v
    /\ (v == series_ref (Z.to_nat num_iterations) 0)%Q.
Proof.
  intros Hacc Hfuel.
  destruct (accepted_bounds _ _ _ Hacc) as (Hp & Ht & Hmax).
  assert (Hsum : num_iterations + num_procs <= CInt.INT_MAX) by int_exact.
  pose proof (block_size_ceil num_iterations num_procs
                ltac:(lia) ltac:(lia) Hsum) as Hceil. cbv zeta in Hceil.
  destruct (reduce_to_root_one_thread fuel num_procs num_iterations Hacc Hfuel
              (Z.to_nat num_procs) 0%nat ltac:(lia)) as (v & Hrun & Hv).
  exists v. split; [exact Hrun|].
  rewrite Hv. cbn [Nat.add Z.of_nat Z.mul].
  rewrite Z2Nat.id by lia.
  replace (Z.min 0 num_iterations) with 0 by lia.
  replace (Z.min (num_procs * block_size num_iterations num_procs)
             num_iterations) with num_iterations by lia.
  replace (num_iterations - 0) with num_iterations by lia.
  reflexivity.
Qed.

Lemma advance_at_index (n : Z) (s : store) :
  0 <= n -> 12 * n + 10 <= CInt.INT_MAX -> at_index s n ->
  exists s', advance 1 n s = Ok s' /\ at_index s' (n + 1).
Proof.
  intros Hn Hmax (Ha & Hb & Hc & Hcc).
  destruct (advance_spec 1 n s Hn Hmax) as (s' & Hrun & Ha' & Hb' & Hc' & Hcc').
  exists s'. split; [exact Hrun|].
  unfold at_index. rewrite Ha', Hb', Hc', Hcc', Hcc.
  split; [|split; [|split]].
  - rewrite Ha. apply dep_a_ref_step. exact Hn.
  - rewrite Hb. apply dep_b_ref_step. exact Hn.
  - rewrite Hc. apply dep_c_ref_step.
  - reflexivity.
Qed.

Lemma advance_from_one_thread (count : nat) :
  forall (i : Z) (s : store),
    0 <= i -> 12 * (i + Z.of_nat count) <= CInt.INT_MAX ->
    at_index s i ->
    exists s',
      advance_from count 1 i s = Ok s' /\ at_index s' (i + Z.of_nat count).
Proof.
  induction count as [|count IH]; intros i s Hi Hmax Hat.
  - exists s. split; [reflexivity|].
    replace (i + Z.of_nat 0) with i by lia. exact Hat.
  - destruct (advance_at_index i s Hi ltac:(int_exact) Hat)
      as (s1 & Hrun & Hat1).
    cbn [advance_from]. rewrite Hrun. cbn [bind].
    rewrite CIntFacts.add_exact by int_exact.
    destruct (IH (i + 1) s1 ltac:(lia) ltac:(int_exact) Hat1)
      as (s' & Hrest & Hat').
    exists s'. split; [exact Hrest|].
    replace (i + Z.of_nat (S count)) with (i + 1 + Z.of_nat count) by lia.
    exact Hat'.
Qed.

(** In a process of one thread, the state initialised directly at index [n]
    and the state reached from index 0 by [n] updates are the same, and are
    the state the header of the file gives for [n]. *)
Lemma direct_state_is_advanced_state_one_thread (n : nat) :
  12 * Z.of_nat n <= CInt.INT_MAX ->
  exists direct advanced,
    direct_state 1 (Z.of_nat n) = Ok direct
    /\ advanced_state 1 n = Ok advanced
    /\ at_index direct (Z.of_nat n) /\ at_index advanced (Z.of_nat n)
    /\ (direct Var.dep_a == advanced Var.dep_a)%Q
    /\ (direct Var.dep_b == advanced Var.dep_b)%Q
    /\ (direct Var.dep_c == advanced Var.dep_c)%Q.
Proof.
  intros Hmax. unfold advanced_state, direct_state.
  destruct (thread_init_at_index (Z.of_nat n) (process_init 1 empty_store))
    as (direct & Hd & Hatd & _); [lia | int_exact | reflexivity |].
  destruct (thread_init_at_index 0 (process_init 1 empty_store))
    as (s0 & H0 & Hat0 & _); [lia | int_exact | reflexivity |].
  rewrite H0. cbn [bind].
  destruct (advance_from_one_thread n 0 s0 ltac:(lia) ltac:(int_exact) Hat0)
    as (advanced & Ha & Hata).
  cbn [Z.add] in Hata.
  exists direct, advanced.
  split; [exact Hd|]. split; [exact Ha|]. split; [exact Hatd|].
  split; [exact Hata|].
  destruct Hatd as (Ha1 & Hb1 & Hc1 & _), Hata as (Ha2 & Hb2 & Hc2 & _).
  rewrite Ha1, Ha2, Hb1, Hb2, Hc1, Hc2. repeat split; reflexivity.
Qed.

(** * Further properties of the code *)

(** ** Every index belongs to one block *)

(** X1.  For [num_iterations >= 1] and [num_procs >= 1] (their sum being an
    [int]), every index [0 <= i < num_iterations] lies in the block of exactly
    one process, the process [i / block_size], and that rank is below
    [num_procs]. *)
Theorem block_of_index (num_iterations num_procs proc_id i : Z) :
  1 <= num_iterations -> 1 <= num_procs ->
  num_iterations + num_procs <= CInt.INT_MAX ->
  0 <= proc_id < num_procs -> 0 <= i < num_iterations ->
  0 <= i / block_size num_iterations num_procs < num_procs
  /\ (block_start num_iterations num_procs proc_id <= i
      < block_end num_iterations num_procs proc_id
      <-> proc_id = i / block_size num_iterations num_procs).
Proof.
  intros Hi Hp Hmax Hid Hidx.
  pose proof (block_size_ceil _ _ Hi Hp Hmax) as Hc. cbv zeta in Hc.
  rewrite block_start_exact, block_end_exact by assumption.
  set (bs := block_size num_iterations num_procs) in *.
  assert (Hbs : 1 <= bs) by nia.
  pose proof (Z.div_mod i bs ltac:(lia)) as Hdm.
  pose proof (Z.mod_pos_bound i bs ltac:(lia)) as Hmod.
  set (q := i / bs) in *. set (r := i mod bs) in *.
  split; [nia|]. split.
  - intros [Hlo Hhi].
    assert (i < (proc_id + 1) * bs) by lia. nia.
  - intros ->. split; [nia|].
    apply Z.min_glb_lt; [nia | lia].
Qed.

Lemma block_of_index_witness :
  block_start 5 4 1 <= 3 < block_end 5 4 1 <-> 1 = 3 / block_size 5 4.
Proof.
  refine (proj2 (block_of_index 5 4 1 3 _ _ _ _ _));
    try (unfold CInt.INT_MAX; lia).
Defined.

(** X12.  An accepted configuration has [num_threads <= block_size], and
    the block of process 0 is [[0, block_size)]: the first block is full and
    each of its threads owns at least one index. *)
Theorem accepted_block_holds_every_thread
    (num_procs num_iterations num_threads : Z) :
  accepted num_procs num_iterations num_threads ->
  num_threads <= block_size num_iterations num_procs <= num_iterations
  /\ block_start num_iterations num_procs 0 = 0
  /\ block_end num_iterations num_procs 0
     = block_size num_iterations num_procs.
Proof.
  intros Hacc.
  destruct (accepted_bounds _ _ _ Hacc) as (Hp & Ht & Hmax).
  destruct Hacc as (_ & _ & Hprod & _).
  assert (Hsum : num_iterations + num_procs <= CInt.INT_MAX) by int_exact.
  pose proof (block_size_ceil num_iterations num_procs
                ltac:(lia) ltac:(lia) Hsum) as Hceil. cbv zeta in Hceil.
  rewrite block_start_exact, block_end_exact by lia.
  set (bs := block_size num_iterations num_procs) in *.
  assert (Hlow : num_threads <= bs) by nia.
  assert (Hhigh : bs <= num_iterations) by nia.
  repeat split; lia.
Qed.

Lemma accepted_block_holds_every_thread_witness :
  2 <= block_size 5 2 <= 5 /\ block_start 5 2 0 = 0
  /\ block_end 5 2 0 = block_size 5 2.
Proof.
  apply (accepted_block_holds_every_thread 2 5 2).
  unfold accepted, max_iterations. lia.
Defined.

(** ** The cyclic split of a block among the threads *)

Lemma loop_indices_member (block_end num_threads : Z) (fuel : nat) :
  forall i : Z,
    0 <= i -> 1 <= num_threads ->
    block_end + num_threads <= CInt.INT_MAX ->
    (Z.to_nat (block_end - i) <= fuel)%nat ->
    forall j : Z,
      In j (loop_indices fuel block_end num_threads i)
      <-> i <= j < block_end /\ (j - i) mod num_threads = 0.
Proof.
  induction fuel as [|fuel IH]; intros i Hi Ht Hmax Hfuel j.
  - simpl. destruct (Z.ltb_spec i block_end); [lia|].
    split; [contradiction | lia].
  - simpl. destruct (Z.ltb_spec i block_end) as [Hlt | Hge].
    + rewrite CIntFacts.add_exact by int_exact.
      cbn [In]. rewrite IH by lia.
      assert (Hshift : (j - (i + num_threads)) mod num_threads
                       = (j - i) mod num_threads).
      { replace (j - (i + num_threads)) with (j - i + (-1) * num_threads)
          by lia.
        apply Z.mod_add. lia. }
      rewrite Hshift. split.
      * intros [<- | (Hr & Hm)].
        -- split; [lia|]. replace (i - i) with 0 by lia. apply Z.mod_0_l. lia.
        -- split; [lia | exact Hm].
      * intros (Hr & Hm).
        destruct (Z.eq_dec i j) as [-> | Hne]; [left; reflexivity|].
        right.
        assert (Hdiv : j - i = num_threads * ((j - i) / num_threads)).
        { pose proof (Z.div_mod (j - i) num_threads ltac:(lia)). lia. }
        assert (1 <= (j - i) / num_threads) by nia.
        split; [nia | exact Hm].
    + split; [contradiction | lia].
Qed.

Lemma loop_indices_nodup (block_end num_threads : Z) (fuel : nat) :
  forall i : Z,
    0 <= i -> 1 <= num_threads ->
    block_end + num_threads <= CInt.INT_MAX ->
    (Z.to_nat (block_end - i) <= fuel)%nat ->
    NoDup (loop_indices fuel block_end num_threads i).
Proof.
  induction fuel as [|fuel IH]; intros i Hi Ht Hmax Hfuel.
  - simpl. destruct (i <? block_end); constructor.
  - simpl. destruct (Z.ltb_spec i block_end) as [Hlt | Hge]; [|constructor].
    rewrite CIntFacts.add_exact by int_exact.
    constructor.
    + rewrite loop_indices_member by lia. lia.
    + apply IH; lia.
Qed.

Lemma thread_loop_run_indices (block_end num_threads : Z) (fuel : nat) :
  forall (i : Z) (s : store),
    0 <= i -> 1 <= num_threads ->
    block_end + num_threads <= CInt.INT_MAX ->
    (Z.to_nat (block_end - i) <= fuel)%nat ->
    thread_loop fuel block_end num_threads i s
    = run_indices num_threads (loop_indices fuel block_end num_threads i) s.
Proof.
  induction fuel as [|fuel IH]; intros i s Hi Ht Hmax Hfuel.
  - simpl. destruct (Z.ltb_spec i block_end); [lia | reflexivity].
  - simpl. destruct (Z.ltb_spec i block_end) as [Hlt | Hge]; [|reflexivity].
    cbn [run_indices].
    destruct (loop_body num_threads i s) as [s1| |]; cbn [bind];
      try reflexivity.
    rewrite CIntFacts.add_exact by int_exact.
    apply IH; lia.
Qed.

(** X2.  Under an accepted configuration, thread [thread_id] of a process
    runs the loop body exactly at the indices [i] of the block of the
    process with [(i - block_start) mod num_threads = thread_id], once
    each: the threads split the block cyclically and no index is left out
    or taken twice. *)
Theorem thread_visits_its_residue_class (fuel : nat)
    (num_procs proc_id num_iterations num_threads thread_id : Z) :
  accepted num_procs num_iterations num_threads ->
  0 <= proc_id < num_procs -> 0 <= thread_id < num_threads ->
  (Z.to_nat num_iterations <= fuel)%nat ->
  let first := block_start num_iterations num_procs proc_id in
  let last := block_end num_iterations num_procs proc_id in
  let visited :=
    loop_indices fuel last num_threads (CInt.add first thread_id) in
  (forall s,
     thread_loop fuel last num_threads (CInt.add first thread_id) s
     = run_indices num_threads visited s)
  /\ NoDup visited
  /\ forall i,
       In i visited
       <-> first <= i < last /\ (i - first) mod num_threads = thread_id.
Proof.
  intros Hacc Hid Htid Hfuel first last visited.
  destruct (accepted_bounds _ _ _ Hacc) as (Hp & Ht & Hmax).
  assert (Hsum : num_iterations + num_procs <= CInt.INT_MAX) by int_exact.
  pose proof (block_size_ceil num_iterations num_procs
                ltac:(lia) ltac:(lia) Hsum) as Hceil. cbv zeta in Hceil.
  pose proof (block_start_exact num_iterations num_procs proc_id
                ltac:(lia) ltac:(lia) Hid Hsum) as Hbs.
  pose proof (block_end_le num_iterations num_procs proc_id) as Hbe.
  fold first in Hbs. fold last in Hbe.
  assert (Hfirst : 0 <= first) by (rewrite Hbs; nia).
  assert (Hfirst' : first <= num_iterations + num_procs) by (rewrite Hbs; nia).
  subst visited.
  rewrite CIntFacts.add_exact by int_exact.
  assert (Hmax' : last + num_threads <= CInt.INT_MAX) by int_exact.
  split; [|split].
  - intros s. apply thread_loop_run_indices; lia.
  - apply loop_indices_nodup; lia.
  - intros i. rewrite loop_indices_member by lia.
    replace (i - (first + thread_id)) with (i - first - thread_id) by lia.
    split.
    + intros (Hr & Hm). split; [lia|].
      pose proof (Z.div_mod (i - first - thread_id) num_threads ltac:(lia))
        as Hdm.
      rewrite Hm in Hdm.
      symmetry. apply (Z.mod_unique_pos _ _
                         ((i - first - thread_id) / num_threads)); lia.
    + intros (Hr & Hm).
      pose proof (Z.div_mod (i - first) num_threads ltac:(lia)) as Hdm.
      pose proof (Z.mod_pos_bound (i - first) num_threads ltac:(lia)) as Hb.
      rewrite Hm in Hdm.
      assert (0 <= (i - first) / num_threads) by (apply Z.div_pos; lia).
      split; [nia|].
      replace (i - first - thread_id)
        with (0 + ((i - first) / num_threads) * num_threads) by lia.
      rewrite Z.mod_add by lia. apply Z.mod_0_l. lia.
Qed.

Lemma thread_visits_its_residue_class_witness :
  loop_indices 7 (block_end 7 1 0) 3 (CInt.add (block_start 7 1 0) 1) = [1; 4]
  /\ (In 4 (loop_indices 7 (block_end 7 1 0) 3
              (CInt.add (block_start 7 1 0) 1))
      <-> block_start 7 1 0 <= 4 < block_end 7 1 0
          /\ (4 - block_start 7 1 0) mod 3 = 1).
Proof.
  split; [reflexivity|].
  refine (proj2 (proj2 (thread_visits_its_residue_class 7 1 0 7 3 1
                          _ _ _ _)) 4).
  - unfold accepted, max_iterations. lia.
  - lia.
  - lia.
  - simpl. lia.
Defined.

(** ** The order of the critical sections *)

Lemma parallel_region_same_value (fuel : nat)
    (block_start block_end num_threads : Z) (thread_ids : list Z) :
  forall (s1 s2 a : store),
    same_total_value s1 s2 ->
    parallel_region fuel block_start block_end num_threads thread_ids s1
    = Ok a ->
    exists b,
      parallel_region fuel block_start block_end num_threads thread_ids s2
      = Ok b
      /\ same_total_value a b.
Proof.
  induction thread_ids as [|t rest IH]; intros s1 s2 a [Hp Hc] Hrun.
  - injection Hrun as <-. exists s2. split; [reflexivity | split; assumption].
  - cbn [parallel_region] in *.
    rewrite <- (thread_run_ext fuel block_start block_end num_threads t
                  s1 s2 Hc).
    destruct (thread_run fuel block_start block_end num_threads t s1)
      as [v| |]; cbn [bind] in *; try discriminate.
    refine (IH _ _ a _ Hrun).
    split.
    + rewrite !upd_same, Hp. reflexivity.
    + rewrite !upd_other by discriminate. exact Hc.
Qed.

Lemma parallel_region_permuted (fuel : nat)
    (block_start block_end num_threads : Z) (order1 order2 : list Z) :
  Permutation order1 order2 ->
  forall (s1 s2 a : store),
    same_total_value s1 s2 ->
    parallel_region fuel block_start block_end num_threads order1 s1 = Ok a ->
    exists b,
      parallel_region fuel block_start block_end num_threads order2 s2 = Ok b
      /\ same_total_value a b.
Proof.
  induction 1 as [|t l1 l2 Hperm IH|t u l|l1 l2 l3 H12 IH12 H23 IH23];
    intros s1 s2 a [Hp Hc] Hrun.
  - injection Hrun as <-. exists s2. split; [reflexivity | split; assumption].
  - cbn [parallel_region] in *.
    rewrite <- (thread_run_ext fuel block_start block_end num_threads t
                  s1 s2 Hc).
    destruct (thread_run fuel block_start block_end num_threads t s1)
      as [v| |]; cbn [bind] in *; try discriminate.
    refine (IH _ _ a _ Hrun).
    split.
    + rewrite !upd_same, Hp. reflexivity.
    + rewrite !upd_other by discriminate. exact Hc.
  - cbn [parallel_region] in *.
    destruct (thread_run fuel block_start block_end num_threads u s1)
      as [vu| |] eqn:Hu; cbn [bind] in Hrun; try discriminate.
    assert (Hc1 : upd s1 Var.local_proc_pi (s1 Var.local_proc_pi + vu)%Q Var.c
                  = s1 Var.c) by (apply upd_other; discriminate).
    rewrite (thread_run_ext fuel block_start block_end num_threads t
               _ s1 Hc1) in Hrun.
    destruct (thread_run fuel block_start block_end num_threads t s1)
      as [vt| |] eqn:Ht; cbn [bind] in Hrun; try discriminate.
    rewrite <- (thread_run_ext fuel block_start block_end num_threads t
                  s1 s2 Hc), Ht. cbn [bind].
    assert (Hc2 : upd s2 Var.local_proc_pi (s2 Var.local_proc_pi + vt)%Q Var.c
                  = s1 Var.c) by (rewrite upd_other by discriminate; congruence).
    rewrite (thread_run_ext fuel block_start block_end num_threads u
               _ s1 Hc2), Hu. cbn [bind].
    refine (parallel_region_same_value fuel block_start block_end num_threads
              l _ _ a _ Hrun).
    split.
    + rewrite !upd_same, Hp. ring.
    + rewrite !upd_other by discriminate. exact Hc.
  - destruct (IH12 s1 s1 a) as (b & Hb & Hab);
      [split; reflexivity | exact Hrun |].
    destruct (IH23 s1 s2 b) as (c & Hc' & Hbc);
      [split; assumption | exact Hb |].
    exists c. split; [exact Hc'|].
    destruct Hab as [Hab1 Hab2], Hbc as [Hbc1 Hbc2].
    split; [rewrite Hab1; exact Hbc1 | congruence].
Qed.

(** X3.  Up to the rounding of the [mpf_add] of the critical section (line
    156), which the embedding does not model: if the parallel region returns
    for one order in which the threads of a process enter the critical
    section, it returns for every other, and the two totals of the process
    are equal as the exact rationals the embedding computes.  On the
    machine each of these additions is rounded to the precision of
    [local_proc_pi], so the totals of two orders may differ in their last
    bits; nothing is stated about those. *)
Theorem critical_sections_commute (fuel : nat)
    (block_start block_end num_threads : Z) (order1 order2 : list Z)
    (s a : store) :
  Permutation order1 order2 ->
  parallel_region fuel block_start block_end num_threads order1 s = Ok a ->
  exists b,
    parallel_region fuel block_start block_end num_threads order2 s = Ok b
    /\ (a Var.local_proc_pi == b Var.local_proc_pi)%Q.
Proof.
  intros Hperm Hrun.
  destruct (parallel_region_permuted fuel block_start block_end num_threads
              order1 order2 Hperm s s a) as (b & Hb & Hab & _);
    [split; reflexivity | exact Hrun |].
  exists b. split; assumption.
Qed.

Lemma critical_sections_commute_witness :
  exists a b,
    parallel_region 4 0 4 1 [0; 1] (process_init 1 empty_store) = Ok a
    /\ parallel_region 4 0 4 1 [1; 0] (process_init 1 empty_store) = Ok b
    /\ (a Var.local_proc_pi == b Var.local_proc_pi)%Q.
Proof.
  destruct (parallel_region 4 0 4 1 [0; 1] (process_init 1 empty_store))
    as [a| |] eqn:Ha; try (vm_compute in Ha; discriminate).
  destruct (critical_sections_commute 4 0 4 1 [0; 1] [1; 0]
              (process_init 1 empty_store) a (perm_swap 1 0 []) Ha)
    as (b & Hb & Hab).
  exists a, b. split; [reflexivity|]. split; assumption.
Defined.

(** ** When the run of a process returns *)

Lemma Qis_zero_of_eq (q : Q) : (q == 0)%Q -> Qis_zero q = true.
Proof.
  unfold Qis_zero, Qeq. simpl. intros H. apply Z.eqb_eq. lia.
Qed.

Lemma final_assembly_returns
    (sqrt_approx : Q -> Q) (proc_id : Z) (recbuffer : Q) (s : store) :
  proc_id <> 0 \/ ~ (recbuffer == 0)%Q ->
  exists s', final_assembly sqrt_approx proc_id recbuffer s = Ok s'.
Proof.
  intros H. unfold final_assembly, mpf_div.
  destruct (Z.eqb_spec proc_id 0) as [H0 | H0]; [|eexists; reflexivity].
  destruct H as [H | H]; [contradiction|].
  match goal with
  | |- context [Qis_zero ?q] => replace q with recbuffer by reflexivity
  end.
  rewrite (Qis_zero_false _ H). eexists. reflexivity.
Qed.

Lemma final_assembly_zero
    (sqrt_approx : Q -> Q) (recbuffer : Q) (s : store) :
  (recbuffer == 0)%Q ->
  final_assembly sqrt_approx 0 recbuffer s = DivByZero.
Proof.
  intros H. unfold final_assembly, mpf_div. cbn [Z.eqb].
  match goal with
  | |- context [Qis_zero ?q] => replace q with recbuffer by reflexivity
  end.
  rewrite (Qis_zero_of_eq _ H). reflexivity.
Qed.

(** X9.  Under an accepted configuration, with fuel for [num_iterations]
    passes, the run of a process returns unless it is the root and the
    reduced value is zero: no loop runs out of fuel and no division of the
    local phase meets a zero divisor.  On the root a zero reduced value ends
    the run in the division of the final assembly. *)
Theorem algorithm_returns_unless_zero_sum
    (sqrt_approx : Q -> Q) (fuel : nat)
    (num_procs proc_id num_iterations num_threads : Z)
    (recbuffer : Q) (s : store) :
  accepted num_procs num_iterations num_threads ->
  0 <= proc_id < num_procs ->
  (Z.to_nat num_iterations <= fuel)%nat ->
  (proc_id <> 0 \/ ~ (recbuffer == 0)%Q ->
   exists s' sendbuffer,
     chudnovsky_algorithm_gmp sqrt_approx fuel num_procs proc_id
       num_iterations num_threads recbuffer s
     = Ok (s', algorithm_events num_threads sendbuffer proc_id))
  /\ (proc_id = 0 -> (recbuffer == 0)%Q ->
      chudnovsky_algorithm_gmp sqrt_approx fuel num_procs proc_id
        num_iterations num_threads recbuffer s = DivByZero).
Proof.
  intros Hacc Hid Hfuel.
  destruct (local_phase_ok fuel num_procs proc_id num_iterations num_threads s
              Hacc Hid Hfuel) as (s1 & Hloc & _ & He).
  unfold chudnovsky_algorithm_gmp. rewrite Hloc. cbn [bind]. split.
  - intros H.
    destruct (final_assembly_returns sqrt_approx proc_id recbuffer s1 H)
      as (s' & Hfin).
    rewrite Hfin. cbn [bind]. eexists. eexists. reflexivity.
  - intros -> Hzero.
    rewrite (final_assembly_zero sqrt_approx recbuffer s1 Hzero).
    reflexivity.
Qed.

Lemma algorithm_returns_unless_zero_sum_witness :
  chudnovsky_algorithm_gmp (sqrt_trunc 64) 3 1 0 3 3 0 empty_store
  = DivByZero.
Proof.
  refine (proj2 (algorithm_returns_unless_zero_sum (sqrt_trunc 64) 3 1 0 3 3
                   0 empty_store _ _ _) eq_refl _).
  - unfold accepted, max_iterations. lia.
  - lia.
  - simpl. lia.
  - reflexivity.
Defined.

(** ** One thread per process: what is packed *)

(** X4.  With one thread per process, under an accepted configuration, the
    value a process packs for the reduction is the sum of the terms of the
    series (as the header of the file states them) over the indices of its
    block. *)
Theorem one_thread_packs_block_sum
    (sqrt_approx : Q -> Q) (fuel : nat)
    (num_procs proc_id num_iterations : Z) (recbuffer : Q) (s : store) :
  accepted num_procs num_iterations 1 ->
  0 <= proc_id < num_procs ->
  (Z.to_nat num_iterations <= fuel)%nat ->
  proc_id <> 0 \/ ~ (recbuffer == 0)%Q ->
  exists s' sendbuffer,
    chudnovsky_algorithm_gmp sqrt_approx fuel num_procs proc_id
      num_iterations 1 recbuffer s
    = Ok (s', algorithm_events 1 sendbuffer proc_id)
    /\ (sendbuffer
        == series_ref
             (Z.to_nat (block_end num_iterations num_procs proc_id
                        - block_start num_iterations num_procs proc_id))
             (block_start num_iterations num_procs proc_id))%Q.
Proof.
  intros Hacc Hid Hfuel Hfin.
  destruct (local_phase_ok fuel num_procs proc_id num_iterations 1 s
              Hacc Hid Hfuel) as (s1 & Hloc & _).
  destruct (process_total_one_thread fuel num_procs proc_id num_iterations
              Hacc Hid Hfuel) as (v & Hv & Hsum).
  unfold process_total in Hv.
  pose proof (local_phase_ext fuel num_procs proc_id num_iterations 1
                s empty_store) as Hext.
  rewrite Hloc in Hext.
  destruct (local_phase fuel num_procs proc_id num_iterations 1 empty_store)
    as [s0| |]; cbn [related bind] in *; try contradiction.
  injection Hv as <-. destruct Hext as [Htot _].
  destruct (final_assembly_returns sqrt_approx proc_id recbuffer s1 Hfin)
    as (s' & Hfin').
  unfold chudnovsky_algorithm_gmp. rewrite Hloc. cbn [bind].
  rewrite Hfin'. cbn [bind].
  exists s', (s1 Var.local_proc_pi). split; [reflexivity|].
  rewrite Htot. exact Hsum.
Qed.

Lemma one_thread_packs_block_sum_witness :
  exists s' sendbuffer,
    chudnovsky_algorithm_gmp (sqrt_trunc 64) 4 2 1 4 1 0 empty_store
    = Ok (s', algorithm_events 1 sendbuffer 1)
    /\ (sendbuffer
        == series_ref (Z.to_nat (block_end 4 2 1 - block_start 4 2 1))
             (block_start 4 2 1))%Q.
Proof.
  apply (one_thread_packs_block_sum (sqrt_trunc 64) 4 2 1 4 0 empty_store).
  - unfold accepted, max_iterations. lia.
  - lia.
  - simpl. lia.
  - left. discriminate.
Defined.

(** X5.  With one thread per process, under an accepted configuration and
    whatever the number of processes, adding up the values the processes
    pack (the reduction operator taken to be the addition its name gives)
    yields the sum of the terms [0] to [num_iterations - 1] of the series:
    the blocks lose no term and count none twice. *)
Theorem one_thread_reduction_is_series
    (fuel : nat) (num_procs num_iterations : Z) :
  accepted num_procs num_iterations 1 ->
  (Z.to_nat num_iterations <= fuel)%nat ->
  exists v,
    global_sum fuel num_procs num_iterations 1 = Ok v
    /\ (v == series_ref (Z.to_nat num_iterations) 0)%Q.
Proof.
  intros Hacc Hfuel.
  destruct (accepted_bounds _ _ _ Hacc) as (Hp & Ht & Hmax).
  assert (Hsum : num_iterations + num_procs <= CInt.INT_MAX) by int_exact.
  pose proof (block_size_ceil num_iterations num_procs
                ltac:(lia) ltac:(lia) Hsum) as Hceil. cbv zeta in Hceil.
  destruct (reduce_to_root_one_thread fuel num_procs num_iterations Hacc Hfuel
              (Z.to_nat num_procs) 0%nat ltac:(lia)) as (v & Hrun & Hv).
  exists v. split; [exact Hrun|].
  rewrite Hv. cbn [Nat.add Z.of_nat Z.mul].
  rewrite Z2Nat.id by lia.
  replace (Z.min 0 num_iterations) with 0 by lia.
  replace (Z.min (num_procs * block_size num_iterations num_procs)
             num_iterations) with num_iterations by lia.
  replace (num_iterations - 0) with num_iterations by lia.
  reflexivity.
Qed.

Lemma one_thread_reduction_is_series_witness :
  exists v,
    global_sum 5 3 5 1 = Ok v /\ (v == series_ref 5 0)%Q.
Proof.
  apply (one_thread_reduction_is_series 5 3 5).
  - unfold accepted, max_iterations. lia.
  - simpl. lia.
Defined.

(** ** The direct initialisation *)

(** X7.  For an index [0 <= n] with [6 * n] an [int], [init_dep_a_gmp]
    returns (its divisor is a product of factorials, never zero) with the
    target holding [(6n)! / ((n!)^3 (3n)!)], which is 1 at index 0, and
    writes nothing but the target and its own two temporaries. *)
Theorem init_dep_a_gmp_ratio (target : Var.t) (n : Z) (s : store) :
  0 <= n -> 6 * n <= CInt.INT_MAX ->
  exists s',
    init_dep_a_gmp target n s = Ok s'
    /\ (s' target == dep_a_ref n)%Q
    /\ (n = 0 -> (s' target == 1)%Q)
    /\ forall x,
         x <> target -> x <> Var.float_dividend -> x <> Var.float_divisor ->
         s' x = s x.
Proof.
  intros Hn Hmax. unfold init_dep_a_gmp, mpf_div, mpf_set_z.
  rewrite !CIntFacts.mul_exact by int_exact.
  rewrite !CIntFacts.to_ulong_exact by int_exact.
  rewrite upd_same.
  rewrite Qis_zero_false.
  - eexists. split; [reflexivity|].
    rewrite !upd_same.
    rewrite (upd_other _ Var.float_divisor Var.float_dividend) by discriminate.
    rewrite upd_same.
    split; [|split].
    + unfold dep_a_ref. rewrite (Z.mul_comm (mpz_fac_ui (3 * n))). reflexivity.
    + intros ->. vm_compute. reflexivity.
    + intros x Hx Hd Hv.
      rewrite !upd_other by congruence. reflexivity.
  - apply inject_Z_nonzero.
    pose proof (mpz_fac_ui_pos (3 * n)) as H3.
    pose proof (mpz_fac_ui_pos n) as H1.
    assert (0 < mpz_fac_ui n ^ 3) by (apply Z.pow_pos_nonneg; lia).
    nia.
Qed.

Lemma init_dep_a_gmp_ratio_witness :
  exists s',
    init_dep_a_gmp Var.dep_a 2 empty_store = Ok s'
    /\ (s' Var.dep_a == dep_a_ref 2)%Q.
Proof.
  destruct (init_dep_a_gmp_ratio Var.dep_a 2 empty_store)
    as (s' & Hrun & Hv & _); try (unfold CInt.INT_MAX; lia).
  exists s'. split; assumption.
Defined.

(** ** The recurrence along the loop *)

Lemma direct_state_spec (num_threads start : Z) :
  0 <= start -> 6 * start <= CInt.INT_MAX ->
  1 <= num_threads -> 3 * num_threads <= CInt.INT_MAX ->
  exists s,
    direct_state num_threads start = Ok s
    /\ s Var.c = ((- inject_Z C) ^ (3 * num_threads))%Q
    /\ (s Var.dep_a == dep_a_ref start)%Q
    /\ s Var.dep_b = (((- inject_Z C) ^ (3 * num_threads)) ^ start)%Q
    /\ (s Var.dep_c == dep_c_ref start)%Q.
Proof.
  intros Hs Hmax Ht Hmax3. unfold direct_state.
  destruct (thread_init_spec start 0 (process_init num_threads empty_store))
    as (s & Hrun & _ & Ha & Hb & Hc & Hcc & _).
  cbv zeta in *.
  rewrite CIntFacts.add_exact in * by int_exact.
  rewrite !CIntFacts.mul_exact in * by int_exact.
  rewrite !CIntFacts.to_ulong_exact in * by int_exact.
  replace (start + 0) with start in * by lia.
  assert (Hc0 : process_init num_threads empty_store Var.c
                = ((- inject_Z C) ^ (3 * num_threads))%Q).
  { unfold process_init, mpf_pow_ui.
    rewrite CIntFacts.mul_exact by int_exact.
    rewrite CIntFacts.to_ulong_exact by int_exact.
    rewrite upd_same. reflexivity. }
  exists s. split; [exact Hrun|].
  rewrite Hcc, Ha, Hb, Hc, Hc0.
  split; [reflexivity|]. split; [|split; [reflexivity|]].
  - unfold dep_a_ref. rewrite (Z.mul_comm (mpz_fac_ui (3 * start))).
    reflexivity.
  - unfold dep_c_ref. rewrite inject_Z_plus, inject_Z_mult. reflexivity.
Qed.

Lemma advance_from_spec (num_threads : Z) (count : nat) :
  forall (i : Z) (s : store),
    0 <= i -> 1 <= num_threads ->
    12 * (i + Z.of_nat count * num_threads) + 10 <= CInt.INT_MAX ->
    exists s',
      advance_from count num_threads i s = Ok s'
      /\ s' Var.c = s Var.c
      /\ (s' Var.dep_b == s Var.dep_b * s Var.c ^ Z.of_nat count)%Q
      /\ (s' Var.dep_c
          == s Var.dep_c
             + inject_Z (Z.of_nat count
                         * CInt.to_ulong (CInt.mul B num_threads)))%Q.
Proof.
  induction count as [|count IH]; intros i s Hi Ht Hmax.
  - exists s. split; [reflexivity|]. split; [reflexivity|].
    split; simpl; ring.
  - assert (0 <= Z.of_nat count * num_threads) by nia.
    destruct (advance_spec num_threads i s Hi ltac:(int_exact))
      as (s1 & Hrun & _ & Hb1 & Hc1 & Hcc1).
    cbn [advance_from]. rewrite Hrun. cbn [bind].
    rewrite CIntFacts.add_exact by int_exact.
    destruct (IH (i + num_threads) s1 ltac:(lia) Ht ltac:(int_exact))
      as (s' & Hrest & Hcc' & Hb' & Hc').
    exists s'. split; [exact Hrest|]. split; [congruence|].
    rewrite Hb', Hc', Hb1, Hc1, Hcc1.
    split.
    + replace (Z.of_nat (S count)) with (1 + Z.of_nat count) by lia.
      destruct (Qeq_dec (s Var.c) 0) as [Hz | Hnz].
      * rewrite Hz.
        destruct count as [|count'].
        -- simpl. ring.
        -- rewrite !Qpower_0 by lia. ring.
      * rewrite Qpower_plus by exact Hnz. simpl (_ ^ 1)%Q. ring.
    + rewrite <- Qplus_assoc, <- inject_Z_plus.
      replace (CInt.to_ulong (CInt.mul B num_threads)
               + Z.of_nat count * CInt.to_ulong (CInt.mul B num_threads))
        with (Z.of_nat (S count) * CInt.to_ulong (CInt.mul B num_threads))
        by (rewrite Nat2Z.inj_succ; unfold Z.succ; ring).
      reflexivity.
Qed.

(** X6.  In a process of one thread, from any start index: the state
    initialised directly at [start] and updated [count] times has the same
    three dependencies as the state initialised directly at
    [start + count]. *)
Theorem one_thread_update_reaches_direct_state (start : Z) (count : nat) :
  0 <= start -> 12 * (start + Z.of_nat count) + 10 <= CInt.INT_MAX ->
  exists direct advanced target,
    direct_state 1 start = Ok direct
    /\ advance_from count 1 start direct = Ok advanced
    /\ direct_state 1 (start + Z.of_nat count) = Ok target
    /\ (advanced Var.dep_a == target Var.dep_a)%Q
    /\ (advanced Var.dep_b == target Var.dep_b)%Q
    /\ (advanced Var.dep_c == target Var.dep_c)%Q.
Proof.
  intros Hs Hmax. unfold direct_state.
  destruct (thread_init_at_index start (process_init 1 empty_store))
    as (direct & Hd & Hatd & _); [lia | int_exact | reflexivity |].
  destruct (thread_init_at_index (start + Z.of_nat count)
              (process_init 1 empty_store))
    as (target & Ht & Hatt & _); [lia | int_exact | reflexivity |].
  destruct (advance_from_one_thread count start direct Hs
              ltac:(int_exact) Hatd) as (advanced & Ha & Hata).
  exists direct, advanced, target.
  split; [exact Hd|]. split; [exact Ha|]. split; [exact Ht|].
  destruct Hatt as (Ha1 & Hb1 & Hc1 & _), Hata as (Ha2 & Hb2 & Hc2 & _).
  rewrite Ha1, Ha2, Hb1, Hb2, Hc1, Hc2. repeat split; reflexivity.
Qed.

Lemma one_thread_update_reaches_direct_state_witness :
  exists direct advanced target,
    direct_state 1 3 = Ok direct
    /\ advance_from 2 1 3 direct = Ok advanced
    /\ direct_state 1 (3 + Z.of_nat 2) = Ok target
    /\ (advanced Var.dep_a == target Var.dep_a)%Q.
Proof.
  destruct (one_thread_update_reaches_direct_state 3 2)
    as (d & a & t & Hd & Ha & Ht & Hda & _); try (unfold CInt.INT_MAX; lia).
  exists d, a, t. repeat split; assumption.
Defined.

(** X8.  In a process of [num_threads] threads, the state initialised
    directly at [start] and updated [count] times has the power term of
    index [num_threads * (start + count)], whereas the loop is then at index
    [start + count * num_threads]; its linear term is the one of that loop
    index as long as [num_threads <= 3]. *)
Theorem stride_update_invariants (num_threads start : Z) (count : nat) :
  1 <= num_threads -> 3 * num_threads <= CInt.INT_MAX ->
  0 <= start ->
  12 * (start + Z.of_nat count * num_threads) + 10 <= CInt.INT_MAX ->
  exists direct advanced,
    direct_state num_threads start = Ok direct
    /\ advance_from count num_threads start direct = Ok advanced
    /\ (advanced Var.dep_b
        == dep_b_ref (num_threads * (start + Z.of_nat count)))%Q
    /\ (num_threads <= 3 ->
        (advanced Var.dep_c
         == dep_c_ref (start + Z.of_nat count * num_threads))%Q).
Proof.
  intros Ht Hmax3 Hs Hmax.
  assert (Hk : 0 <= Z.of_nat count * num_threads) by nia.
  destruct (direct_state_spec num_threads start Hs ltac:(int_exact) Ht Hmax3)
    as (direct & Hd & Hcc & _ & Hb & Hc).
  destruct (advance_from_spec num_threads count start direct Hs Ht Hmax)
    as (advanced & Ha & _ & Hb' & Hc').
  exists direct, advanced. split; [exact Hd|]. split; [exact Ha|]. split.
  - rewrite Hb', Hb, Hcc.
    rewrite <- Qpower_plus by apply c_nonzero.
    unfold dep_b_ref. change (inject_Z (- C)) with (- inject_Z C)%Q.
    rewrite <- Qpower_mult.
    replace (3 * (num_threads * (start + Z.of_nat count)))
      with (3 * num_threads * (start + Z.of_nat count)) by ring.
    reflexivity.
  - intros H3. rewrite Hc', Hc.
    rewrite (dep_c_step_up_to_three_threads num_threads) by lia.
    unfold dep_c_ref. rewrite <- inject_Z_plus.
    apply inject_Z_injective. unfold B. ring.
Qed.

Lemma stride_update_invariants_witness :
  exists direct advanced,
    direct_state 2 1 = Ok direct
    /\ advance_from 2 2 1 direct = Ok advanced
    /\ (advanced Var.dep_b == dep_b_ref (2 * (1 + Z.of_nat 2)))%Q.
Proof.
  destruct (stride_update_invariants 2 1 2)
    as (d & a & Hd & Ha & Hb & _); try (unfold CInt.INT_MAX; lia).
  exists d, a. repeat split; assumption.
Defined.

(** ** The driver: iteration count and exits *)

Lemma chudnovsky_iterations_value (precision : Z) :
  0 < precision <= CInt.INT_MAX - 14 ->
  chudnovsky_iterations precision = (precision + 13) / 14.
Proof.
  intros H. unfold chudnovsky_iterations.
  rewrite CIntFacts.add_exact by int_exact.
  rewrite CIntFacts.sub_exact by int_exact.
  rewrite CIntFacts.div_exact by int_exact.
  f_equal. lia.
Qed.

(** X10.  For [0 < precision <= INT_MAX - 14] the iteration count of the
    Chudnovsky selectors is [ceil (precision / 14)], and (the product
    [num_threads * num_procs] being an [int]) the pre-flight check lets the
    run through exactly when [precision > 14 * (num_threads * num_procs - 1)]. *)
Theorem chudnovsky_iterations_ceiling
    (num_procs precision num_threads proc_id : Z) :
  0 < precision <= CInt.INT_MAX - 14 ->
  CInt.in_range (num_threads * num_procs) ->
  let num_iterations := chudnovsky_iterations precision in
  14 * (num_iterations - 1) < precision <= 14 * num_iterations
  /\ (snd (check_errors_gmp num_procs precision num_iterations num_threads
             proc_id 3) = true
      <-> 14 * (num_threads * num_procs - 1) < precision).
Proof.
  intros Hp Hr num_iterations.
  pose proof (chudnovsky_iterations_value precision Hp) as Hni.
  fold num_iterations in Hni.
  pose proof (Z.div_mod (precision + 13) 14 ltac:(lia)) as Hdm.
  pose proof (Z.mod_pos_bound (precision + 13) 14 ltac:(lia)) as Hmod.
  rewrite <- Hni in Hdm.
  split; [lia|].
  destruct (Z_lt_le_dec num_iterations (num_threads * num_procs))
    as [Hbad | Hgood].
  - destruct (check_errors_gmp_rejects num_procs precision num_iterations
                num_threads proc_id 3 Hr (or_intror Hbad)) as (msgs & Hc & _).
    rewrite Hc. cbn [snd]. split; [discriminate | lia].
  - rewrite (check_errors_gmp_accepts num_procs precision num_iterations
               num_threads proc_id 3 Hr ltac:(lia) Hgood).
    cbn [snd]. split; [lia | reflexivity].
Qed.

Lemma chudnovsky_iterations_ceiling_witness :
  14 * (chudnovsky_iterations 29 - 1) < 29 <= 14 * chudnovsky_iterations 29
  /\ (snd (check_errors_gmp 2 29 (chudnovsky_iterations 29) 2 0 3) = true
      <-> 14 * (2 * 2 - 1) < 29).
Proof.
  apply (chudnovsky_iterations_ceiling 2 29 2 0).
  - unfold CInt.INT_MAX. lia.
  - unfold CInt.in_range, CInt.INT_MIN, CInt.INT_MAX. lia.
Defined.

Lemma check_errors_gmp_nonpositive
    (num_procs precision num_iterations num_threads proc_id algorithm : Z) :
  precision <= 0 ->
  check_errors_gmp num_procs precision num_iterations num_threads
    proc_id algorithm
  = ((if proc_id =? 0 then [Printf msg_precision] else [])
     ++ [MPI_Finalize; Exit (-1)], false).
Proof.
  intros H. unfold check_errors_gmp.
  destruct (Z.leb_spec precision 0); [reflexivity | lia].
Qed.

(** ** Where the [int] products leave the integers *)

Lemma wrap_bounds (z : Z) : CInt.in_range (CInt.wrap z).
Proof.
  unfold CInt.in_range, CInt.INT_MIN, CInt.INT_MAX, CInt.wrap.
  pose proof (Z.mod_pos_bound (z + 2147483648) 4294967296 ltac:(lia)). lia.
Qed.

Lemma to_ulong_of_int_differs (z product : Z) :
  CInt.INT_MAX < product < 18446744071562067968 ->
  CInt.to_ulong (CInt.wrap z) <> product.
Proof.
  intros Hp. pose proof (wrap_bounds z) as Hw.
  unfold CInt.in_range, CInt.INT_MIN, CInt.INT_MAX in *.
  unfold CInt.to_ulong.
  destruct (Z_lt_le_dec (CInt.wrap z) 0) as [Hneg | Hpos].
  - replace (CInt.wrap z)
      with (CInt.wrap z + 18446744073709551616
            + (-1) * 18446744073709551616) by lia.
    rewrite Z.mod_add by lia. rewrite Z.mod_small by lia. lia.
  - rewrite Z.mod_small by lia. lia.
Qed.

(** X13.  The bits handed to [mpf_set_default_prec] are [precision * 8]
    exactly for the precisions [0 <= precision <= 268435455]; for every
    larger [int] precision the [int] product wraps and another number of bits
    is set. *)
Theorem precision_bits_exact_iff (precision : Z) :
  0 <= precision <= CInt.INT_MAX ->
  (CInt.to_ulong (CInt.mul precision 8) = precision * 8
   <-> precision <= 268435455).
Proof.
  intros Hp. unfold CInt.INT_MAX in Hp. split.
  - intros Heq.
    destruct (Z_le_gt_dec precision 268435455) as [Hle | Hgt]; [exact Hle|].
    exfalso. revert Heq. unfold CInt.mul.
    apply to_ulong_of_int_differs. unfold CInt.INT_MAX. lia.
  - intros Hle.
    rewrite CIntFacts.mul_exact by int_exact.
    apply CIntFacts.to_ulong_exact. int_exact.
Qed.

Lemma precision_bits_exact_iff_witness :
  CInt.to_ulong (CInt.mul 300000000 8) = 300000000 * 8
  <-> 300000000 <= 268435455.
Proof.
  apply (precision_bits_exact_iff 300000000). unfold CInt.INT_MAX. lia.
Defined.

(** X14.  For an index [0 <= i] with [12 * i + 10] an [int] and
    [1 <= num_threads], the update returns, and it adds
    [545140134 * num_threads] to the linear term exactly when
    [num_threads <= 3]: from four threads on the [int] product wraps. *)
Theorem dep_c_step_exact_iff (num_threads i : Z) (s : store) :
  0 <= i -> 12 * i + 10 <= CInt.INT_MAX ->
  1 <= num_threads <= CInt.INT_MAX ->
  exists s',
    advance num_threads i s = Ok s'
    /\ ((s' Var.dep_c == s Var.dep_c + inject_Z (545140134 * num_threads))%Q
        <-> num_threads <= 3).
Proof.
  intros Hi Hmax Ht.
  destruct (advance_spec num_threads i s Hi Hmax)
    as (s' & Hrun & _ & _ & Hc & _).
  exists s'. split; [exact Hrun|]. rewrite Hc. split.
  - intros Heq.
    destruct (Z_le_gt_dec num_threads 3) as [Hle | Hgt]; [exact Hle|].
    exfalso. apply Qplus_inj_l in Heq.
    apply (proj1 (inject_Z_injective _ _)) in Heq.
    revert Heq. unfold CInt.mul.
    apply to_ulong_of_int_differs. unfold CInt.INT_MAX, B in *. lia.
  - intros Hle.
    rewrite (dep_c_step_up_to_three_threads num_threads) by lia.
    reflexivity.
Qed.

Lemma dep_c_step_exact_iff_witness :
  exists s',
    advance 5 0 empty_store = Ok s'
    /\ ((s' Var.dep_c == empty_store Var.dep_c + inject_Z (545140134 * 5))%Q
        <-> 5 <= 3).
Proof.
  apply (dep_c_step_exact_iff 5 0 empty_store); unfold CInt.INT_MAX; lia.
Defined.

(** * The run on the machine *)

(** ** Each function creates its variables under the default in force *)

Section MachineFacts.

Variable available_limbs : Z.
Variable sqrt_approx : Q -> Q.

Lemma allocate_runs (x : Var.t) (m : machine) :
  default_prec m + 1 <= available_limbs ->
  OnMachine.allocate available_limbs x m
  = Running (Machine (default_prec m) (carried m ++ [(x, default_prec m)])
               (values m) (calls m ++ [MpfInit x])).
Proof.
  intros H. unfold OnMachine.allocate.
  destruct (Z.leb_spec (default_prec m + 1) available_limbs); [reflexivity|lia].
Qed.

Lemma allocate_fails (x : Var.t) (m : machine) :
  available_limbs < default_prec m + 1 ->
  OnMachine.allocate available_limbs x m
  = Halted (AllocationFailed (default_prec m + 1)) m.
Proof.
  intros H. unfold OnMachine.allocate.
  destruct (Z.leb_spec (default_prec m + 1) available_limbs); [lia|reflexivity].
Qed.

Lemma mpf_init_set_ui_runs (x : Var.t) (u : Z) (m : machine) :
  default_prec m + 1 <= available_limbs ->
  OnMachine.mpf_init_set_ui available_limbs x u m
  = Running (Machine (default_prec m) (carried m ++ [(x, default_prec m)])
               (mpf_set_ui x u (values m)) (calls m ++ [MpfInit x])).
Proof.
  intros H. unfold OnMachine.mpf_init_set_ui. cbn [run_steps].
  rewrite (allocate_runs x m H). reflexivity.
Qed.

Lemma mpf_init_runs (x : Var.t) (m : machine) :
  default_prec m + 1 <= available_limbs ->
  OnMachine.mpf_init available_limbs x m
  = Running (Machine (default_prec m) (carried m ++ [(x, default_prec m)])
               (upd (values m) x 0%Q) (calls m ++ [MpfInit x])).
Proof.
  intros H. unfold OnMachine.mpf_init. cbn [run_steps].
  rewrite (allocate_runs x m H). reflexivity.
Qed.

Lemma thread_init_runs (block_start thread_id : Z) (m : machine) (s : store) :
  default_prec m + 1 <= available_limbs ->
  thread_init block_start thread_id (values m) = Ok s ->
  OnMachine.thread_init available_limbs block_start thread_id m
  = Running (Machine (default_prec m)
               (carried m ++ thread_carried (default_prec m)) s
               (calls m ++ tl (thread_events thread_id))).
Proof.
  intros Hle Hplain. destruct m as [d c v k]. cbn [default_prec values] in *.
  unfold thread_init in Hplain.
  unfold OnMachine.thread_init, OnMachine.init_dep_a_gmp. cbn [run_steps].
  rewrite mpf_init_set_ui_runs by exact Hle.
  cbn [default_prec values carried calls].
  repeat (rewrite mpf_init_runs by exact Hle;
          cbn [default_prec values carried calls]).
  repeat (rewrite allocate_runs by exact Hle;
          cbn [default_prec values carried calls]).
  unfold attempt. cbn [default_prec values carried calls].
  match type of Hplain with
  | bind ?r _ = _ => destruct r as [s1| |]; cbn [bind] in Hplain;
                     try discriminate
  end.
  injection Hplain as <-.
  unfold compute at 1. cbn [default_prec values carried calls].
  rewrite mpf_init_set_ui_runs by exact Hle.
  cbn [default_prec values carried calls].
  unfold compute. cbn [default_prec values carried calls].
  unfold thread_carried, thread_events. cbn [tl].
  rewrite <- !app_assoc. reflexivity.
Qed.

Lemma thread_run_runs (fuel : nat)
    (block_start block_end num_threads thread_id : Z) (m : machine) (v : Q) :
  default_prec m + 1 <= available_limbs ->
  thread_run fuel block_start block_end num_threads thread_id (values m)
  = Ok v ->
  exists s,
    OnMachine.thread_run available_limbs fuel block_start block_end
      num_threads thread_id m
    = Running (Machine (default_prec m)
                 (carried m ++ thread_carried (default_prec m)) s
                 (calls m ++ thread_events thread_id))
    /\ s Var.local_thread_pi = v.
Proof.
  intros Hle Hplain. unfold thread_run in Hplain.
  destruct (thread_init block_start thread_id (values m)) as [s1| |] eqn:Hinit;
    cbn [bind] in Hplain; try discriminate.
  destruct (thread_loop fuel block_end num_threads
              (CInt.add block_start thread_id) s1) as [s2| |] eqn:Hloop;
    cbn [bind] in Hplain; try discriminate.
  injection Hplain as <-.
  exists s2. split; [|reflexivity].
  unfold OnMachine.thread_run. cbn [run_steps].
  unfold record at 1.
  rewrite (thread_init_runs block_start thread_id _ s1);
    cbn [default_prec values carried calls]; try assumption.
  unfold attempt. cbn [default_prec values carried calls].
  rewrite Hloop. rewrite <- app_assoc. reflexivity.
Qed.

Lemma parallel_region_runs (fuel : nat)
    (block_start block_end num_threads : Z) (thread_ids : list Z) :
  forall (m : machine) (s : store),
    default_prec m + 1 <= available_limbs ->
    parallel_region fuel block_start block_end num_threads thread_ids
      (values m) = Ok s ->
    OnMachine.parallel_region available_limbs fuel block_start block_end
      num_threads thread_ids m
    = Running (Machine (default_prec m)
                 (carried m
                  ++ flat_map (fun _ => thread_carried (default_prec m))
                       thread_ids)
                 s
                 (calls m ++ flat_map thread_events thread_ids)).
Proof.
  induction thread_ids as [|t rest IH]; intros m s Hle Hplain.
  - cbn [parallel_region] in Hplain. injection Hplain as <-.
    cbn [OnMachine.parallel_region flat_map]. rewrite !app_nil_r.
    destruct m; reflexivity.
  - cbn [parallel_region] in Hplain.
    destruct (thread_run fuel block_start block_end num_threads t (values m))
      as [v| |] eqn:Hrun; cbn [bind] in Hplain; try discriminate.
    destruct (thread_run_runs fuel block_start block_end num_threads t m v
                Hle Hrun) as (st & Hmt & Hv).
    cbn [OnMachine.parallel_region]. rewrite Hmt.
    cbn [default_prec values carried calls]. rewrite Hv.
    rewrite (IH _ s); cbn [default_prec values carried calls];
      try assumption.
    cbn [flat_map]. rewrite <- !app_assoc. reflexivity.
Qed.

Lemma process_init_runs (num_threads : Z) (m : machine) :
  default_prec m + 1 <= available_limbs ->
  OnMachine.process_init available_limbs num_threads m
  = Running (Machine (default_prec m)
               (carried m
                ++ [ (Var.local_proc_pi, default_prec m);
                     (Var.e, default_prec m); (Var.c, default_prec m) ])
               (process_init num_threads (values m))
               (calls m
                ++ [MpfInit Var.local_proc_pi; MpfInit Var.e; MpfInit Var.c])).
Proof.
  intros Hle. destruct m as [d c v k]. cbn [default_prec values carried calls] in *.
  unfold OnMachine.process_init. cbn [run_steps].
  repeat (rewrite mpf_init_set_ui_runs by exact Hle;
          cbn [default_prec values carried calls]).
  unfold compute. cbn [default_prec values carried calls].
  rewrite <- !app_assoc. reflexivity.
Qed.

(** The run on the machine retraces [chudnovsky_algorithm_gmp]: when every
    allocation succeeds it returns where that function returns, with the same
    values and the same calls, every variable carrying the default. *)
Lemma chudnovsky_algorithm_gmp_runs (fuel : nat)
    (num_procs proc_id num_iterations num_threads : Z) (recbuffer : Q)
    (m : machine) (s : store) (trace : list event) :
  default_prec m + 1 <= available_limbs ->
  chudnovsky_algorithm_gmp sqrt_approx fuel num_procs proc_id num_iterations
    num_threads recbuffer (values m) = Ok (s, trace) ->
  OnMachine.chudnovsky_algorithm_gmp available_limbs sqrt_approx fuel
    num_procs proc_id num_iterations num_threads recbuffer m
  = Running (Machine (default_prec m)
               (carried m ++ algorithm_carried (default_prec m) num_threads)
               s (calls m ++ trace)).
Proof.
  intros Hle Hplain.
  unfold chudnovsky_algorithm_gmp, local_phase in Hplain.
  destruct (parallel_region fuel
              (block_start num_iterations num_procs proc_id)
              (block_end num_iterations num_procs proc_id)
              num_threads (team num_threads)
              (process_init num_threads (values m))) as [s1| |] eqn:Hpar;
    cbn [bind] in Hplain; try discriminate.
  destruct (final_assembly sqrt_approx proc_id recbuffer s1) as [s2| |] eqn:Hfin;
    cbn [bind] in Hplain; try discriminate.
  injection Hplain as <- <-.
  unfold OnMachine.chudnovsky_algorithm_gmp, OnMachine.local_phase.
  cbn [run_steps].
  rewrite process_init_runs by exact Hle.
  rewrite (parallel_region_runs fuel _ _ num_threads (team num_threads) _ s1);
    cbn [default_prec values carried calls]; try assumption.
  unfold record, record_all, attempt.
  cbn [default_prec values carried calls]. rewrite Hfin.
  unfold algorithm_carried, algorithm_events.
  rewrite <- !app_assoc. reflexivity.
Qed.

End MachineFacts.

(** ** What GMP makes of the bits asked for *)

Lemma bits_to_prec_exact (bits : Z) :
  0 <= bits <= 4294967296 ->
  Gmp.bits_to_prec bits = (Z.max 53 bits + 127) / 64.
Proof.
  intros H. unfold Gmp.bits_to_prec, Gmp.NUMB_BITS.
  replace (2 * 64 - 1) with 127 by reflexivity.
  rewrite Z.mod_small by lia. reflexivity.
Qed.

Lemma prec_to_bits_of_request (bits : Z) :
  0 <= bits <= 4294967296 ->
  Gmp.prec_to_bits (Gmp.bits_to_prec bits)
  = 64 * ((Z.max 53 bits + 63) / 64)
  /\ bits <= Gmp.prec_to_bits (Gmp.bits_to_prec bits).
Proof.
  intros H. rewrite bits_to_prec_exact by exact H.
  unfold Gmp.prec_to_bits, Gmp.NUMB_BITS.
  replace (Z.max 53 bits + 127) with (Z.max 53 bits + 63 + 1 * 64) by lia.
  rewrite Z.div_add by lia.
  pose proof (Z.div_mod (Z.max 53 bits + 63) 64 ltac:(lia)) as Hdm.
  pose proof (Z.mod_pos_bound (Z.max 53 bits + 63) 64 ltac:(lia)) as Hmod.
  split; lia.
Qed.

Lemma requested_bits_positive (precision : Z) :
  0 <= precision <= 268435455 ->
  CInt.to_ulong (CInt.mul precision 8) = precision * 8.
Proof.
  intros H. rewrite CIntFacts.mul_exact by int_exact.
  apply CIntFacts.to_ulong_exact. int_exact.
Qed.

Lemma requested_bits_negative (precision : Z) :
  -268435456 <= precision < 0 ->
  CInt.to_ulong (CInt.mul precision 8)
  = 18446744073709551616 + precision * 8.
Proof.
  intros H. rewrite CIntFacts.mul_exact by int_exact.
  unfold CInt.to_ulong.
  replace (precision * 8)
    with (18446744073709551616 + precision * 8
          + (-1) * 18446744073709551616) at 1 by lia.
  rewrite Z.mod_add by lia. apply Z.mod_small. lia.
Qed.

(** From [precision = -16] down, the wrapped request asks for more than
    [2^57] limbs. *)
Lemma prec_of_negative_precision (precision : Z) :
  -268435456 <= precision <= -16 ->
  144115188075855872
  <= Gmp.bits_to_prec (CInt.to_ulong (CInt.mul precision 8)).
Proof.
  intros H. rewrite requested_bits_negative by lia.
  unfold Gmp.bits_to_prec, Gmp.NUMB_BITS.
  replace (2 * 64 - 1) with 127 by reflexivity.
  rewrite Z.max_r by lia. rewrite Z.mod_small by lia.
  apply Z.div_le_lower_bound; lia.
Qed.

(** From [precision = -15] to [0] the request, or what is left of it once
    the sum wraps, asks for at most two limbs. *)
Lemma prec_of_small_precision (precision : Z) :
  -15 <= precision <= 0 ->
  0 <= Gmp.bits_to_prec (CInt.to_ulong (CInt.mul precision 8)) <= 2.
Proof.
  intros H. destruct (Z.eq_dec precision 0) as [-> | Hne].
  - vm_compute. split; discriminate.
  - rewrite requested_bits_negative by lia.
    unfold Gmp.bits_to_prec, Gmp.NUMB_BITS.
    replace (2 * 64 - 1) with 127 by reflexivity.
    rewrite Z.max_r by lia.
    replace (18446744073709551616 + precision * 8 + 127)
      with (precision * 8 + 127 + 1 * 18446744073709551616) by lia.
    rewrite Z.mod_add by lia. rewrite Z.mod_small by lia.
    split.
    + apply Z.div_pos; lia.
    + apply Z.div_le_upper_bound; lia.
Qed.

(** ** The driver on the machine *)

Section DriverFacts.

Variable available_limbs : Z.
Variable sqrt_approx : Q -> Q.
Variable other_algorithm : Z -> OnMachine.algorithm_gmp.
Variable bbp_iterations : Z -> Z.

Lemma run_steps_last (first : step) (m : machine) :
  run_steps [first] m = first m.
Proof. cbn [run_steps]. destruct (first m); reflexivity. Qed.

Lemma run_steps_app (steps1 steps2 : list step) (m : machine) :
  run_steps (steps1 ++ steps2) m
  = match run_steps steps1 m with
    | Running m' => run_steps steps2 m'
    | Halted why m' => Halted why m'
    end.
Proof.
  revert m. induction steps1 as [|first rest IH]; intros m; [reflexivity|].
  cbn [app run_steps]. destruct (first m); [apply IH | reflexivity].
Qed.

Lemma run_steps_cons (first : step) (rest : list step) (m m' : machine) :
  first m = Running m' -> run_steps (first :: rest) m = run_steps rest m'.
Proof. intros H. cbn [run_steps]. rewrite H. reflexivity. Qed.

Lemma prologue_runs (proc_id precision : Z) (m : machine) :
  proc_id <> 0
  \/ Gmp.bits_to_prec (CInt.to_ulong (CInt.mul precision 8)) + 1
     <= available_limbs ->
  run_steps
    [ OnMachine.mpf_set_default_prec (CInt.to_ulong (CInt.mul precision 8));
      (if proc_id =? 0
       then OnMachine.mpf_init_set_ui available_limbs Var.pi 0
       else run_steps []) ] m
  = Running (after_prologue proc_id precision m).
Proof.
  intros H. cbn [run_steps]. unfold OnMachine.mpf_set_default_prec.
  unfold after_prologue.
  destruct (Z.eqb_spec proc_id 0) as [H0 | H0].
  - destruct H as [H | H]; [contradiction|].
    rewrite mpf_init_set_ui_runs by exact H.
    cbn [default_prec values carried calls].
    rewrite <- app_assoc. reflexivity.
  - cbn [run_steps]. rewrite app_nil_r. reflexivity.
Qed.

(** On process 0, when [pi] cannot be allocated, the run stops there: the
    only call on record is [mpf_set_default_prec]. *)
Lemma calculate_pi_gmp_aborts (fuel : nat)
    (num_procs algorithm precision num_threads : Z) (recbuffer : Q)
    (m : machine) :
  let bits := CInt.to_ulong (CInt.mul precision 8) in
  available_limbs < Gmp.bits_to_prec bits + 1 ->
  OnMachine.calculate_pi_gmp available_limbs sqrt_approx other_algorithm
    bbp_iterations fuel num_procs 0 algorithm precision num_threads
    recbuffer m
  = Halted (AllocationFailed (Gmp.bits_to_prec bits + 1))
      (Machine (Gmp.bits_to_prec bits) (carried m) (values m)
         (calls m ++ [MpfSetDefaultPrec bits])).
Proof.
  intros bits H. unfold OnMachine.calculate_pi_gmp. cbn [run_steps Z.eqb].
  unfold OnMachine.mpf_set_default_prec. fold bits.
  unfold OnMachine.mpf_init_set_ui. cbn [run_steps].
  rewrite allocate_fails by exact H. reflexivity.
Qed.

Lemma calculate_pi_gmp_dispatch
    (proc_id precision : Z) (m : machine) (last : step) :
  proc_id <> 0
  \/ Gmp.bits_to_prec (CInt.to_ulong (CInt.mul precision 8)) + 1
     <= available_limbs ->
  run_steps
    [ OnMachine.mpf_set_default_prec (CInt.to_ulong (CInt.mul precision 8));
      (if proc_id =? 0
       then OnMachine.mpf_init_set_ui available_limbs Var.pi 0
       else run_steps []);
      last ] m
  = last (after_prologue proc_id precision m).
Proof.
  intros H.
  change [ OnMachine.mpf_set_default_prec
             (CInt.to_ulong (CInt.mul precision 8));
           (if proc_id =? 0
            then OnMachine.mpf_init_set_ui available_limbs Var.pi 0
            else run_steps []);
           last ]
    with ([ OnMachine.mpf_set_default_prec
              (CInt.to_ulong (CInt.mul precision 8));
            (if proc_id =? 0
             then OnMachine.mpf_init_set_ui available_limbs Var.pi 0
             else run_steps []) ] ++ [last]).
  rewrite run_steps_app, (prologue_runs proc_id precision m H).
  apply run_steps_last.
Qed.

Lemma checked_run_rejects
    (num_procs proc_id algorithm precision num_threads num_iterations : Z)
    (fuel : nat) (recbuffer : Q) (run : OnMachine.algorithm_gmp)
    (m : machine) (evs : list event) :
  check_errors_gmp num_procs precision num_iterations num_threads
    proc_id algorithm = (evs, false) ->
  OnMachine.checked_run num_procs proc_id algorithm precision num_threads
    num_iterations fuel recbuffer run m
  = Halted (Exited (-1)) (with_calls m evs).
Proof.
  intros H. unfold OnMachine.checked_run. rewrite H. reflexivity.
Qed.

Lemma checked_run_accepts
    (num_procs proc_id algorithm precision num_threads num_iterations : Z)
    (fuel : nat) (recbuffer : Q) (run : OnMachine.algorithm_gmp)
    (m : machine) :
  check_errors_gmp num_procs precision num_iterations num_threads
    proc_id algorithm = ([], true) ->
  OnMachine.checked_run num_procs proc_id algorithm precision num_threads
    num_iterations fuel recbuffer run m
  = run fuel num_procs proc_id num_iterations num_threads recbuffer m.
Proof.
  intros H. unfold OnMachine.checked_run. rewrite H.
  unfold record_all. rewrite app_nil_r. destruct m; reflexivity.
Qed.

End DriverFacts.

Section DriverExits.

Variable available_limbs : Z.
Variable sqrt_approx : Q -> Q.
Variable other_algorithm : Z -> OnMachine.algorithm_gmp.
Variable bbp_iterations : Z -> Z.

Lemma calculate_pi_gmp_rejects_precision (fuel : nat)
    (num_procs proc_id algorithm precision num_threads : Z) (recbuffer : Q)
    (m : machine) :
  proc_id <> 0
  \/ Gmp.bits_to_prec (CInt.to_ulong (CInt.mul precision 8)) + 1
     <= available_limbs ->
  0 <= algorithm <= 3 -> precision <= 0 ->
  OnMachine.calculate_pi_gmp available_limbs sqrt_approx other_algorithm
    bbp_iterations fuel num_procs proc_id algorithm precision num_threads
    recbuffer m
  = Halted (Exited (-1))
      (with_calls (after_prologue proc_id precision m)
         ((if proc_id =? 0 then [Printf msg_precision] else [])
          ++ [MPI_Finalize; Exit (-1)])).
Proof.
  intros Hpro Hsel Hp. unfold OnMachine.calculate_pi_gmp.
  rewrite calculate_pi_gmp_dispatch by exact Hpro.
  assert (Hcases : algorithm = 0 \/ algorithm = 1 \/ algorithm = 2
                   \/ algorithm = 3) by lia.
  destruct Hcases as [-> | [-> | [-> | ->]]];
    apply checked_run_rejects; apply check_errors_gmp_nonpositive; exact Hp.
Qed.

Lemma calculate_pi_gmp_rejects_selector (fuel : nat)
    (num_procs proc_id algorithm precision num_threads : Z) (recbuffer : Q)
    (m : machine) :
  proc_id <> 0
  \/ Gmp.bits_to_prec (CInt.to_ulong (CInt.mul precision 8)) + 1
     <= available_limbs ->
  ~ (0 <= algorithm <= 3) ->
  OnMachine.calculate_pi_gmp available_limbs sqrt_approx other_algorithm
    bbp_iterations fuel num_procs proc_id algorithm precision num_threads
    recbuffer m
  = Halted (Exited (-1))
      (with_calls (after_prologue proc_id precision m)
         ((if proc_id =? 0 then
             [ Printf msg_algorithm; Printf msg_bbp; Printf msg_bellard;
               Printf msg_chudnovsky; Printf EmptyString ]
           else [])
          ++ [MPI_Finalize; Exit (-1)])).
Proof.
  intros Hpro Hsel. unfold OnMachine.calculate_pi_gmp.
  rewrite calculate_pi_gmp_dispatch by exact Hpro.
  assert (Hdefault :
    forall m',
      run_steps
        [ record_all
            (if proc_id =? 0 then
               [ Printf msg_algorithm; Printf msg_bbp; Printf msg_bellard;
                 Printf msg_chudnovsky; Printf EmptyString ]
             else []);
          record MPI_Finalize;
          record (Exit (-1));
          (fun m0 => Halted (Exited (-1)) m0) ] m'
      = Halted (Exited (-1))
          (with_calls m'
             ((if proc_id =? 0 then
                 [ Printf msg_algorithm; Printf msg_bbp; Printf msg_bellard;
                   Printf msg_chudnovsky; Printf EmptyString ]
               else [])
              ++ [MPI_Finalize; Exit (-1)]))).
  { intros m'. cbn [run_steps]. unfold record_all, record, with_calls.
    cbn [default_prec values carried calls].
    rewrite <- !app_assoc. reflexivity. }
  destruct algorithm as [|q|q]; try lia; [|apply Hdefault].
  destruct q as [[q|q|]|[q|q|]|]; try lia; apply Hdefault.
Qed.

(** C8.  With [-268435456 <= precision <= -16] the bits asked of
    [mpf_set_default_prec] are the wrapped product, more than [2^57] limbs:
    on process 0 the creation of [pi], which comes before the check, cannot
    be allocated on a machine that cannot hand out [2^57] limbs, and the run
    halts there, with neither message nor [MPI_Finalize] on record; the
    other processes reach the check, which prints nothing on them. *)
Theorem precision_is_checked_after_pi_is_created (fuel : nat)
    (num_procs proc_id algorithm precision num_threads : Z) (recbuffer : Q)
    (m : machine) :
  -268435456 <= precision <= -16 ->
  available_limbs < 144115188075855872 ->
  let bits := CInt.to_ulong (CInt.mul precision 8) in
  OnMachine.calculate_pi_gmp available_limbs sqrt_approx other_algorithm
    bbp_iterations fuel num_procs 0 algorithm precision num_threads
    recbuffer m
  = Halted (AllocationFailed (Gmp.bits_to_prec bits + 1))
      (Machine (Gmp.bits_to_prec bits) (carried m) (values m)
         (calls m ++ [MpfSetDefaultPrec bits]))
  /\ (proc_id <> 0 -> 0 <= algorithm <= 3 ->
      OnMachine.calculate_pi_gmp available_limbs sqrt_approx other_algorithm
        bbp_iterations fuel num_procs proc_id algorithm precision num_threads
        recbuffer m
      = Halted (Exited (-1))
          (Machine (Gmp.bits_to_prec bits) (carried m) (values m)
             (calls m ++ [MpfSetDefaultPrec bits; MPI_Finalize; Exit (-1)]))).
Proof.
  intros Hp Hmem bits.
  pose proof (prec_of_negative_precision precision Hp) as Hbig.
  fold bits in Hbig. split.
  - apply calculate_pi_gmp_aborts. fold bits. lia.
  - intros Hnr Hsel.
    rewrite calculate_pi_gmp_rejects_precision; try assumption;
      [|left; exact Hnr | lia].
    unfold with_calls, after_prologue. fold bits.
    destruct (Z.eqb_spec proc_id 0) as [H0 | _]; [contradiction|].
    cbn [default_prec values carried calls].
    rewrite !app_nil_r, <- app_assoc. reflexivity.
Qed.

End DriverExits.

Lemma precision_is_checked_after_pi_is_created_witness :
  OnMachine.calculate_pi_gmp 1099511627776 (sqrt_trunc 64)
    (fun _ _ _ _ _ _ _ m => Running m) (fun p => p)
    0 2 0 3 (-16) 2 0 fresh_machine
  = Halted (AllocationFailed 288230376151711744)
      (Machine 288230376151711743 [] empty_store
         [MpfSetDefaultPrec 18446744073709551488]).
Proof.
  refine (proj1 (precision_is_checked_after_pi_is_created 1099511627776
                   (sqrt_trunc 64) (fun _ _ _ _ _ _ _ m => Running m)
                   (fun p => p) 0 2 0 3 (-16) 2 0 fresh_machine _ _)); lia.
Defined.

(** X11.  With [precision <= 0] and a selector in [0..3], or with a selector
    outside [0..3]: on a process other than 0, and on process 0 whenever [pi]
    can be allocated (for [-15 <= precision <= 0] that takes at most three
    limbs), [calculate_pi_gmp] sets the default precision, creates [pi] on
    process 0 only, prints on process 0 only (the precision message in the
    first case, the five lines about the selector in the second), finalizes
    MPI and exits with status -1, no algorithm being run.  On process 0,
    when [pi] cannot be allocated (from [precision = -16] down the request is
    above [2^57] limbs), the run halts in the creation of [pi] with nothing
    else on record. *)
Theorem calculate_pi_gmp_exits
    (available_limbs : Z) (sqrt_approx : Q -> Q)
    (other_algorithm : Z -> OnMachine.algorithm_gmp)
    (bbp_iterations : Z -> Z) (fuel : nat)
    (num_procs proc_id algorithm precision num_threads : Z) (recbuffer : Q)
    (m : machine) :
  let bits := CInt.to_ulong (CInt.mul precision 8) in
  let run :=
    OnMachine.calculate_pi_gmp available_limbs sqrt_approx other_algorithm
      bbp_iterations fuel num_procs proc_id algorithm precision num_threads
      recbuffer m in
  (proc_id <> 0 \/ Gmp.bits_to_prec bits + 1 <= available_limbs ->
   (0 <= algorithm <= 3 -> precision <= 0 ->
    run = Halted (Exited (-1))
            (with_calls (after_prologue proc_id precision m)
               ((if proc_id =? 0 then [Printf msg_precision] else [])
                ++ [MPI_Finalize; Exit (-1)])))
   /\ (~ (0 <= algorithm <= 3) ->
       run = Halted (Exited (-1))
               (with_calls (after_prologue proc_id precision m)
                  ((if proc_id =? 0 then
                      [ Printf msg_algorithm; Printf msg_bbp;
                        Printf msg_bellard; Printf msg_chudnovsky;
                        Printf EmptyString ]
                    else [])
                   ++ [MPI_Finalize; Exit (-1)]))))
  /\ (proc_id = 0 -> available_limbs < Gmp.bits_to_prec bits + 1 ->
      run = Halted (AllocationFailed (Gmp.bits_to_prec bits + 1))
              (Machine (Gmp.bits_to_prec bits) (carried m) (values m)
                 (calls m ++ [MpfSetDefaultPrec bits])))
  /\ (-15 <= precision <= 0 -> Gmp.bits_to_prec bits + 1 <= 3)
  /\ (-268435456 <= precision <= -16 ->
      144115188075855872 <= Gmp.bits_to_prec bits).
Proof.
  intros bits run. split; [|split; [|split]].
  - intros Hpro. split.
    + intros Hsel Hp.
      apply calculate_pi_gmp_rejects_precision; assumption.
    + intros Hsel.
      apply calculate_pi_gmp_rejects_selector; assumption.
  - intros -> Hmem. apply calculate_pi_gmp_aborts. exact Hmem.
  - intros Hp. pose proof (prec_of_small_precision precision Hp). fold bits in H.
    lia.
  - apply prec_of_negative_precision.
Qed.

Lemma calculate_pi_gmp_exits_witness :
  OnMachine.calculate_pi_gmp 1099511627776 (sqrt_trunc 64)
    (fun _ _ _ _ _ _ _ m => Running m) (fun p => p)
    0 2 0 7 100 2 0 fresh_machine
  = Halted (Exited (-1))
      (Machine 14 [(Var.pi, 14)] (mpf_set_ui Var.pi 0 empty_store)
         [ MpfSetDefaultPrec 800; MpfInit Var.pi;
           Printf msg_algorithm; Printf msg_bbp; Printf msg_bellard;
           Printf msg_chudnovsky; Printf EmptyString;
           MPI_Finalize; Exit (-1) ]).
Proof.
  refine (proj2 (proj1 (calculate_pi_gmp_exits 1099511627776 (sqrt_trunc 64)
                          (fun _ _ _ _ _ _ _ m => Running m) (fun p => p)
                          0 2 0 7 100 2 0 fresh_machine) _) _).
  - right. vm_compute. discriminate.
  - lia.
Defined.

(** ** The precision every variable carries *)

Lemma team_first (num_threads : Z) :
  1 <= num_threads -> exists rest, team num_threads = 0 :: rest.
Proof.
  intros H. unfold team.
  destruct (Z.to_nat num_threads) as [|k] eqn:Hk; [lia|].
  simpl. eexists. reflexivity.
Qed.

Lemma message_events_keep_precision (msgs : list event) :
  forallb is_printf msgs = true -> existsb sets_precision msgs = false.
Proof.
  induction msgs as [|ev msgs IH]; simpl; [reflexivity|].
  intros H. apply andb_true_iff in H. destruct H as [Hev Hrest].
  rewrite (IH Hrest). destruct ev; simpl in *; congruence.
Qed.

Lemma algorithm_carried_uniform (prec num_threads : Z) :
  Forall (fun xp => snd xp = prec) (algorithm_carried prec num_threads).
Proof.
  unfold algorithm_carried. apply Forall_app. split.
  - repeat constructor.
  - apply Forall_forall. intros xp Hin. apply in_flat_map in Hin.
    destruct Hin as (t & _ & Hin). unfold thread_carried in Hin.
    simpl in Hin.
    repeat (destruct Hin as [<- | Hin]; [reflexivity|]). contradiction.
Qed.

Lemma algorithm_carried_members (prec num_threads : Z) (x : Var.t) :
  1 <= num_threads ->
  In x [ Var.local_proc_pi; Var.e; Var.c; Var.local_thread_pi;
         Var.dep_a; Var.dep_b; Var.dep_c ] ->
  In (x, prec) (algorithm_carried prec num_threads).
Proof.
  intros Ht Hx. unfold algorithm_carried.
  destruct (team_first num_threads Ht) as (others & ->).
  cbn [flat_map]. unfold thread_carried. simpl in Hx. simpl.
  repeat (destruct Hx as [<- | Hx]; [tauto|]). contradiction.
Qed.

(** What a recorded sequence of calls creates is what the run allocated. *)
Lemma created_threads (d : Z) (thread_ids : list Z) (rest : list event) :
  created d (flat_map thread_events thread_ids ++ rest)
  = flat_map (fun _ => thread_carried d) thread_ids ++ created d rest.
Proof.
  induction thread_ids as [|t ids IH]; [reflexivity|].
  cbn [flat_map]. rewrite <- !app_assoc.
  unfold thread_events at 1. unfold thread_carried at 1.
  cbn [app created]. rewrite IH. reflexivity.
Qed.

Lemma created_algorithm_events
    (d num_threads : Z) (sendbuffer : Q) (proc_id : Z) :
  created d (algorithm_events num_threads sendbuffer proc_id)
  = algorithm_carried d num_threads.
Proof.
  unfold algorithm_events, algorithm_carried. cbn [app created].
  rewrite created_threads. cbn [app created].
  destruct (proc_id =? 0); cbn [created]; rewrite app_nil_r; reflexivity.
Qed.

Lemma created_messages (d : Z) (msgs rest : list event) :
  forallb is_printf msgs = true ->
  created d (msgs ++ rest) = created d rest.
Proof.
  induction msgs as [|ev msgs IH]; [reflexivity|].
  cbn [forallb]. intros H. apply andb_true_iff in H. destruct H as [Hev Hrest].
  destruct ev; try discriminate. cbn [app created]. apply IH, Hrest.
Qed.

(** C10, as the claim has it, fails: asked for [20 * 8 = 160] bits, GMP sets
    the default to 4 limbs, and [pi], the accumulators and the recurrence
    state all carry [192] bits. *)
Lemma precision_carried_is_not_the_bits_asked :
  exists m,
    OnMachine.calculate_pi_gmp 1099511627776 (sqrt_trunc 64)
      (fun _ _ _ _ _ _ _ m => Running m) (fun p => p)
      2 1 0 3 20 1 (series_ref 2 0) fresh_machine
    = Running m
    /\ Gmp.prec_to_bits (default_prec m) = 192
    /\ Gmp.prec_to_bits (default_prec m) <> 20 * 8
    /\ carried m <> []
    /\ Forall (fun xp => Gmp.prec_to_bits (snd xp) <> 20 * 8) (carried m).
Proof.
  eexists. split; [vm_compute; reflexivity|].
  cbn [default_prec carried].
  split; [reflexivity|]. split; [discriminate|]. split; [discriminate|].
  repeat constructor; discriminate.
Qed.

(** C10, amended.  For [0 < precision <= 268435455], selector 3, a fresh
    process on which an allocation of the size of one variable succeeds, at
    least one process and one thread and a reduced value that is not zero:
    the first call of [calculate_pi_gmp] asks [mpf_set_default_prec] for
    [precision * 8] bits, and no later call of [calculate_pi_gmp] or
    [chudnovsky_algorithm_gmp] sets the default again; GMP keeps the default
    in whole limbs, so the precision in force is
    [64 * ceil (max (53, precision * 8) / 64)] bits, at least what was asked
    and in general not equal to it; every [mpf_t] the two functions create
    carries that precision, and the variables the run has allocated are
    those its recorded calls create ([created]); and when the check passes
    the run returns, with the values and the calls of
    [chudnovsky_algorithm_gmp], having created (after [pi], on process 0)
    [local_proc_pi], [e], [c] and the variables of each thread. *)
Theorem precision_context_whole_limbs
    (available_limbs : Z) (sqrt_approx : Q -> Q)
    (other_algorithm : Z -> OnMachine.algorithm_gmp)
    (bbp_iterations : Z -> Z) (fuel : nat)
    (num_procs proc_id precision num_threads : Z) (recbuffer : Q) :
  0 < precision <= 268435455 ->
  1 <= num_procs -> 1 <= num_threads ->
  CInt.in_range (num_threads * num_procs) ->
  0 <= proc_id < num_procs ->
  ~ (recbuffer == 0)%Q ->
  (Z.to_nat (chudnovsky_iterations precision) <= fuel)%nat ->
  Gmp.bits_to_prec (precision * 8) + 1 <= available_limbs ->
  let prec := Gmp.bits_to_prec (precision * 8) in
  let num_iterations := chudnovsky_iterations precision in
  let run :=
    OnMachine.calculate_pi_gmp available_limbs sqrt_approx other_algorithm
      bbp_iterations fuel num_procs proc_id 3 precision num_threads
      recbuffer fresh_machine in
  let entry :=
    if proc_id =? 0 then mpf_set_ui Var.pi 0 empty_store else empty_store in
  exists m rest,
    (run = Running m \/ run = Halted (Exited (-1)) m)
    /\ calls m = MpfSetDefaultPrec (precision * 8) :: rest
    /\ existsb sets_precision rest = false
    /\ default_prec m = prec
    /\ Forall (fun xp => snd xp = prec) (carried m)
    /\ carried m = created Gmp.initial_prec (calls m)
    /\ Gmp.prec_to_bits prec = 64 * ((Z.max 53 (precision * 8) + 63) / 64)
    /\ precision * 8 <= Gmp.prec_to_bits prec
    /\ (num_threads * num_procs <= num_iterations ->
        run = Running m
        /\ carried m
           = (if proc_id =? 0 then [(Var.pi, prec)] else [])
             ++ algorithm_carried prec num_threads
        /\ (forall x,
              In x [ Var.local_proc_pi; Var.e; Var.c; Var.local_thread_pi;
                     Var.dep_a; Var.dep_b; Var.dep_c ] ->
              In (x, prec) (carried m))
        /\ exists trace,
             chudnovsky_algorithm_gmp sqrt_approx fuel num_procs proc_id
               num_iterations num_threads recbuffer entry
             = Ok (values m, trace)
             /\ rest = (if proc_id =? 0 then [MpfInit Var.pi] else [])
                       ++ trace).
Proof.
  intros Hprec Hp Ht Hr Hid Hrec Hfuel Hmem prec num_iterations run entry.
  pose proof (requested_bits_positive precision ltac:(lia)) as Hbits.
  destruct (prec_to_bits_of_request (precision * 8) ltac:(lia))
    as [Hlimbs Hatleast]. fold prec in Hlimbs, Hatleast.
  assert (Hpro : proc_id <> 0
                 \/ Gmp.bits_to_prec (CInt.to_ulong (CInt.mul precision 8)) + 1
                    <= available_limbs) by (right; rewrite Hbits; exact Hmem).
  assert (Hrun : run
                 = OnMachine.checked_run
                     num_procs proc_id 3 precision num_threads num_iterations
                     fuel recbuffer
                     (OnMachine.chudnovsky_blocks_and_cyclic_algorithm_gmp
                        available_limbs sqrt_approx)
                     (after_prologue proc_id precision fresh_machine)).
  { subst run. unfold OnMachine.calculate_pi_gmp.
    rewrite calculate_pi_gmp_dispatch by exact Hpro. reflexivity. }
  assert (Hentry : values (after_prologue proc_id precision fresh_machine)
                   = entry) by reflexivity.
  assert (Hdef : default_prec (after_prologue proc_id precision fresh_machine)
                 = prec).
  { unfold after_prologue. cbn [default_prec]. rewrite Hbits. reflexivity. }
  destruct (Z_lt_le_dec num_iterations (num_threads * num_procs))
    as [Hbad | Hgood].
  - destruct (check_errors_gmp_rejects num_procs precision num_iterations
                num_threads proc_id 3 Hr (or_intror Hbad))
      as (msgs & Hc & Hpr & _).
    rewrite (checked_run_rejects _ _ _ _ _ _ _ _ _ _ _ Hc) in Hrun.
    unfold with_calls, after_prologue in Hrun.
    cbn [default_prec values carried calls fresh_machine app] in Hrun.
    rewrite Hbits in Hrun. fold prec in Hrun.
    eexists. eexists. split; [right; exact Hrun|].
    cbn [default_prec values carried calls].
    split; [reflexivity|]. split; [|split; [reflexivity|split; [|split]]].
    + rewrite !existsb_app, (message_events_keep_precision _ Hpr).
      destruct (proc_id =? 0); reflexivity.
    + destruct (proc_id =? 0); repeat constructor.
    + cbn [created]. fold prec.
      destruct (proc_id =? 0); cbn [app created];
        rewrite (created_messages _ _ _ Hpr); reflexivity.
    + split; [exact Hlimbs|]. split; [exact Hatleast|]. lia.
  - pose proof (check_errors_gmp_accepts num_procs precision num_iterations
                  num_threads proc_id 3 Hr ltac:(lia) Hgood) as Hc.
    rewrite (checked_run_accepts _ _ _ _ _ _ _ _ _ _ Hc) in Hrun.
    assert (Hacc : accepted num_procs num_iterations num_threads).
    { unfold accepted, max_iterations. repeat split; try assumption.
      subst num_iterations.
      rewrite chudnovsky_iterations_value by int_exact.
      apply Z.div_le_upper_bound; lia. }
    destruct (chudnovsky_algorithm_gmp_returns sqrt_approx fuel num_procs
                proc_id num_iterations num_threads recbuffer entry
                Hacc Hid Hfuel Hrec) as (s' & sendbuffer & Hplain).
    unfold OnMachine.chudnovsky_blocks_and_cyclic_algorithm_gmp in Hrun.
    rewrite (chudnovsky_algorithm_gmp_runs available_limbs sqrt_approx fuel
               num_procs proc_id num_iterations num_threads recbuffer
               (after_prologue proc_id precision fresh_machine) s'
               (algorithm_events num_threads sendbuffer proc_id))
      in Hrun; [|rewrite Hdef; exact Hmem | rewrite Hentry; exact Hplain].
    rewrite Hdef in Hrun.
    unfold after_prologue in Hrun.
    cbn [default_prec values carried calls fresh_machine app] in Hrun.
    rewrite Hbits in Hrun. fold prec in Hrun.
    eexists. eexists. split; [left; exact Hrun|].
    cbn [default_prec values carried calls].
    assert (Hno : existsb sets_precision
                    ((if proc_id =? 0 then [MpfInit Var.pi] else [])
                     ++ algorithm_events num_threads sendbuffer proc_id)
                  = false).
    { rewrite existsb_app, algorithm_events_keep_precision.
      destruct (proc_id =? 0); reflexivity. }
    split; [reflexivity|]. split; [exact Hno|]. split; [reflexivity|].
    split; [|split; [|split; [exact Hlimbs|split; [exact Hatleast|]]]].
    + apply Forall_app. split.
      * destruct (proc_id =? 0); repeat constructor.
      * apply algorithm_carried_uniform.
    + cbn [created]. fold prec.
      destruct (proc_id =? 0); cbn [app created];
        rewrite created_algorithm_events; reflexivity.
    + intros _. split; [exact Hrun|]. split; [reflexivity|]. split.
      * intros x Hx. apply in_or_app. right.
        apply algorithm_carried_members; assumption.
      * eexists. split; [exact Hplain | reflexivity].
Qed.

Lemma precision_context_whole_limbs_witness :
  exists m rest,
    OnMachine.calculate_pi_gmp 1099511627776 (sqrt_trunc 64)
      (fun _ _ _ _ _ _ _ m => Running m) (fun p => p)
      2 1 0 3 20 1 (series_ref 2 0) fresh_machine
    = Running m
    /\ calls m = MpfSetDefaultPrec (20 * 8) :: rest
    /\ default_prec m = Gmp.bits_to_prec (20 * 8)
    /\ Forall (fun xp => snd xp = Gmp.bits_to_prec (20 * 8)) (carried m).
Proof.
  destruct (precision_context_whole_limbs 1099511627776 (sqrt_trunc 64)
              (fun _ _ _ _ _ _ _ m => Running m) (fun p => p)
              2 1 0 20 1 (series_ref 2 0))
    as (m & rest & _ & Hcalls & _ & Hdef & Hall & _ & _ & _ & Hpass).
  - lia.
  - lia.
  - lia.
  - unfold CInt.in_range, CInt.INT_MIN, CInt.INT_MAX. lia.
  - lia.
  - vm_compute. discriminate.
  - vm_compute. lia.
  - vm_compute. discriminate.
  - destruct Hpass as (Hrun & _); [vm_compute; discriminate|].
    exists m, rest. repeat split; assumption.
Defined.
